(** * cross-storage hub: a shallow embedding of [dist/hub.js]

    The hub is the receiving end of a cross-origin storage protocol.  A
    message posted to its window is parsed, the requested method is checked
    against a table of (origin pattern, allowed methods) entries and, when
    permitted, one of five handlers is run against an asynchronous storage
    adapter.  Batched operations go through [_all], which launches one adapter
    call per item and gathers the results by index.

    The embedding keeps the shape of the source:
    - JavaScript values are a small inductive type ([JS.value]);
    - a call that may raise returns an [outcome];
    - the closures handed to the adapter are defunctionalised ([Hub.cont]);
      the variables they share ([results], [pending] of one [_all] call) live
      in a heap cell, so that all closures of one call see the same state;
    - what the hub does to the outside (posting a message, calling the
      adapter) is returned as a list of effects. *)

From Stdlib Require Import ZArith Strings.String Strings.Ascii Numbers.DecimalString.
From stdpp Require Import base list strings gmap.

Local Open Scope string_scope.
Local Open Scope Z_scope.
Local Open Scope list_scope.
Set Warnings "-register-all".

(** ** JavaScript values *)

Module JS.

(** The values that travel through the hub: the results of [JSON.parse], the
    arguments and results of adapter calls, the fields of a reply.  Numbers
    are integers; strings are sequences of one-byte characters; objects are
    property lists in insertion order (a lookup takes the first binding);
    only own properties are modelled, plus [length] of arrays and strings. *)
Inductive value :=
| VUndefined
| VNull
| VBool (b : bool)
| VNum (n : Z)
| VStr (s : string)
| VArr (items : list value)
| VObj (fields : list (string * value)).

(** A call either raises an exception or returns. *)
Inductive outcome (A : Type) :=
| Throw
| Ret (a : A).
Arguments Throw {A}.
Arguments Ret {A} a.

(** ToBoolean: [if (v)], [!v], [v || d]. *)
Definition truthy (v : value) : bool :=
  match v with
  | VUndefined | VNull => false
  | VBool b => b
  | VNum n => negb (n =? 0)
  | VStr s => negb (String.eqb s "")
  | VArr _ | VObj _ => true
  end.

Fixpoint assoc (name : string) (fields : list (string * value)) : value :=
  match fields with
  | [] => VUndefined
  | (k, v) :: rest => if String.eqb k name then v else assoc name rest
  end.

(** [v.name]: raises a TypeError on [undefined] and [null], and is
    [undefined] for a property the value does not have.  Own properties
    only, as on the engines of the IE8 era the hub supports; where
    [Array.prototype.keys] exists, [keys] of an array is that function, which
    is not a [value] here. *)
Definition get_field (v : value) (name : string) : option value :=
  match v with
  | VUndefined | VNull => None
  | VObj fields => Some (assoc name fields)
  | VArr items =>
      Some (if String.eqb name "length" then VNum (Z.of_nat (List.length items)) else VUndefined)
  | VStr s =>
      Some (if String.eqb name "length" then VNum (Z.of_nat (String.length s)) else VUndefined)
  | VBool _ | VNum _ => Some VUndefined
  end.

(** The property name of an array index. *)
Definition index_name (i : nat) : string :=
  NilEmpty.string_of_uint (Nat.to_uint i).

(** [v[i]] for a value whose [length] was already read (so [v] is neither
    [undefined] nor [null]). *)
Definition get_index (v : value) (i : nat) : value :=
  match v with
  | VArr items => default VUndefined (items !! i)
  | VStr s =>
      match String.get i s with
      | Some c => VStr (String c "")
      | None => VUndefined
      end
  | VObj fields => assoc (index_name i) fields
  | _ => VUndefined
  end.

(** The largest length an array can have. *)
Definition max_array_length : Z := 4294967295.

(** [new Array(len)]: [len] holes for a number, a RangeError when the
    number is negative or above [max_array_length]; a one-element array for
    anything else.  A hole reads as [undefined]. *)
Definition new_Array (len : value) : option (list value) :=
  match len with
  | VNum n =>
      if (n <? 0) || (max_array_length <? n) then None
      else Some (replicate (Z.to_nat n) VUndefined)
  | other => Some [other]
  end.

(** How often [for (i = 0; i < len; i++)] runs, for a [len] that is a
    number, a boolean, [null] or [undefined].  A [len] that is a string, an
    array or an object (the [length] of a hand-made object; an array's or a
    string's own [length] is a number) would first be converted to a number by
    JavaScript; that conversion is not modelled and such a [len] is read as
    NaN: the loop does not run. *)
Definition loop_bound (len : value) : nat :=
  match len with
  | VNum n => Z.to_nat n
  | VBool true => 1%nat
  | _ => 0%nat
  end.

(** [arr[i] = v] on an array: in range it overwrites, out of range the
    array grows and the gap reads as [undefined]. *)
Definition array_set (arr : list value) (i : nat) (v : value) : list value :=
  if (i <? List.length arr)%nat then <[i := v]> arr
  else (arr ++ replicate (i - List.length arr) VUndefined ++ [v])%list.

(** [s.split(sep)] for a non-empty string separator: the pieces of [s]
    between the occurrences of [sep], found from left to right without
    overlap.  [skip] counts the characters of a separator still to be
    passed over, [cur] is the piece being collected. *)
Fixpoint split_from (sep : string) (skip : nat) (cur : string) (s : string) : list string :=
  match s with
  | EmptyString => [cur]
  | String c rest =>
      match skip with
      | S k => split_from sep k cur rest
      | O =>
          if String.prefix sep s
          then cur :: split_from sep (String.length sep - 1) "" rest
          else split_from sep 0 (cur +:+ String c "") rest
      end
  end.

Definition split (sep s : string) : list string := split_from sep 0 "" s.

(** The pieces of a split put back together. *)
Fixpoint join (sep : string) (pieces : list string) : string :=
  match pieces with
  | [] => ""
  | [p] => p
  | p :: rest => p +:+ sep +:+ join sep rest
  end.

End JS.

Import JS.

(** ** The hub *)

Module Hub.

(** *** Permission table *)

(** [entry.origin] is expected to be a RegExp, of which only [test] is
    used.
    - [RegExp test]: a RegExp without the [g] or [y] flag; its [test] is a
      function of the string alone.
    - [RegExpAt object exec lastIndex]: a RegExp with the [g] or [y] flag.
      Its [test] starts at the [lastIndex] the object holds and leaves a new
      one, so it depends on the calls made before.  [object] names the RegExp
      object: entries that hold the same object share its [lastIndex].
      [exec s i] is the platform's matcher run on [s] from index [i] (a
      search from [i] on for [g], an attempt at [i] for [y]) and gives the
      index at which the match found ends.
    - [NotRegExp v]: anything else the field may hold. *)
Inductive origin_field :=
| RegExp (test : string -> bool)
| RegExpAt (object : nat) (exec : string -> nat -> option nat) (lastIndex : nat)
| NotRegExp (v : value).

(** [r.test(s)] for a RegExp with the [g] or [y] flag that holds
    [lastIndex]: the answer and the [lastIndex] it leaves. *)
Definition test_at (exec : string -> nat -> option nat) (lastIndex : nat) (s : string)
  : bool * nat :=
  if (String.length s <? lastIndex)%nat then (false, 0%nat)
  else
    match exec s lastIndex with
    | Some e => (true, e)
    | None => (false, 0%nat)
    end.

(** The [lastIndex] an object holds, given those written so far ([seen],
    newest first) and the one the table had at the start. *)
Fixpoint current (seen : list (nat * nat)) (object lastIndex : nat) : nat :=
  match seen with
  | [] => lastIndex
  | (o, i) :: rest => if (o =? object)%nat then i else current rest object lastIndex
  end.

Module Entry.
Record t := { origin : origin_field; allow : value }.
End Entry.

(** The first argument of [init]: an array of entries, or missing or null. *)
Inductive permissions_arg :=
| PUndefined
| PNull
| PEntries (entries : list Entry.t).

(** [_inArray(value, array)], called with the method name as [value]:
    [value === array[i]] holds for a string exactly when [array[i]] is the
    same string. *)
Fixpoint _inArray (value : string) (array : list JS.value) : bool :=
  match array with
  | [] => false
  | x :: rest =>
      match x with
      | VStr s => if String.eqb value s then true else _inArray value rest
      | _ => _inArray value rest
      end
  end.

Definition available : list JS.value :=
  [VStr "get"; VStr "set"; VStr "del"; VStr "clear"; VStr "getKeys"].

(** The [for] loop of [_permitted] over the table: the answer, and the
    [lastIndex] values written to RegExp objects on the way. *)
Fixpoint scan_from (seen : list (nat * nat)) (permissions : list Entry.t)
  (origin method : string) : bool * list (nat * nat) :=
  match permissions with
  | [] => (false, seen)
  | entry :: rest =>
      match Entry.allow entry with
      | VArr allow =>
          match Entry.origin entry with
          | RegExp test =>
              let match_ := test origin in
              if match_ && _inArray method allow then (true, seen)
              else scan_from seen rest origin method
          | RegExpAt object exec lastIndex =>
              let '(match_, after) := test_at exec (current seen object lastIndex) origin in
              let seen' := (object, after) :: seen in
              if match_ && _inArray method allow then (true, seen')
              else scan_from seen' rest origin method
          | NotRegExp _ => scan_from seen rest origin method
          end
      | _ => scan_from seen rest origin method
      end
  end.

Definition scan (permissions : list Entry.t) (origin method : string) : bool :=
  (scan_from [] permissions origin method).1.

Definition _permitted (permissions : list Entry.t) (origin method : string) : bool :=
  if negb (_inArray method available) then false
  else scan permissions origin method.

(** The table once [_permitted] has run: each RegExp object with the
    [lastIndex] the scan left in it. *)
Definition with_lastIndex (seen : list (nat * nat)) (entry : Entry.t) : Entry.t :=
  match Entry.origin entry with
  | RegExpAt object exec lastIndex =>
      {| Entry.origin := RegExpAt object exec (current seen object lastIndex);
         Entry.allow := Entry.allow entry |}
  | _ => entry
  end.

Definition permissions_after (permissions : list Entry.t) (origin method : string)
  : list Entry.t :=
  if negb (_inArray method available) then permissions
  else map (with_lastIndex (scan_from [] permissions origin method).2) permissions.

(** *** The adapter and what the hub hands to it *)

Inductive adapter_method :=
| A_getItem | A_setItem | A_removeItem | A_key | A_length | A_clear.

(** The callbacks the hub passes on, one constructor per function
    expression of the source:
    - [KReply origin request]: the callback built in [_listener];
    - [KGet callback], [KDel callback]: the ones built in [_get] and [_del];
    - [KLength callback]: the one built in [_getKeys];
    - [KItem cell i callback]: the one built in [_all] for item [i], closed
      over the [results] and [pending] of that call, kept in heap cell
      [cell]. *)
Inductive cont :=
| KReply (origin : string) (request : value)
| KGet (callback : cont)
| KDel (callback : cont)
| KLength (callback : cont)
| KItem (cell : nat) (i : nat) (callback : cont).

(** The local variables of one [_all] call. *)
Record all_state := { results : list value; pending : Z }.

(** The cells allocated so far, one per [_all] call. *)
Abbreviation heap := (list all_state).

(** The properties of the [CrossStorageHub] object: its own ones, and those
    it inherits from [Object.prototype]. *)
Inductive property :=
| P_init | P_installListener | P_listener | P_postMessage | P_permitted
| P_set | P_get | P_del | P_clear | P_getKeys
| P_all | P_inArray | P_now
| P_storageAdapter | P_permissions
| P_inherited (name : string).

Definition object_prototype : list string :=
  ["constructor"; "toString"; "toLocaleString"; "valueOf"; "hasOwnProperty";
   "isPrototypeOf"; "propertyIsEnumerable"; "__proto__"; "__defineGetter__";
   "__defineSetter__"; "__lookupGetter__"; "__lookupSetter__"].

Definition own_properties : list (string * property) :=
  [("init", P_init); ("_installListener", P_installListener);
   ("_listener", P_listener); ("_postMessage", P_postMessage);
   ("_permitted", P_permitted); ("_set", P_set); ("_get", P_get);
   ("_del", P_del); ("_clear", P_clear); ("_getKeys", P_getKeys);
   ("_all", P_all); ("_inArray", P_inArray); ("_now", P_now);
   ("_storageAdapter", P_storageAdapter); ("_permissions", P_permissions)].

Fixpoint find_property (name : string) (table : list (string * property)) : option property :=
  match table with
  | [] => None
  | (k, p) :: rest => if String.eqb k name then Some p else find_property name rest
  end.

(** [CrossStorageHub[name]]; [None] is [undefined]. *)
Definition hub_property (name : string) : option property :=
  match find_property name own_properties with
  | Some p => Some p
  | None =>
      if existsb (String.eqb name) object_prototype then Some (P_inherited name)
      else None
  end.

(** What is posted to the parent window: one of the two bare strings, or
    the reply object that the source serialises with [JSON.stringify]. *)
Inductive payload :=
| Ready
| Unavailable
| Reply (id error result : value).

Inductive effect :=
| Post (data : payload) (targetOrigin : string)
| Call (method : adapter_method) (args : list value) (callback : cont)
| Enter (p : property) (params : value).

(** *** Handlers *)

Definition _postMessage (origin : string) (request error result : value)
  : outcome (list effect) :=
  match get_field request "id" with
  | None => Throw
  | Some id =>
      let targetOrigin := if String.eqb origin "file://" then "*" else origin in
      Ret [Post (Reply id error result) targetOrigin]
  end.

(** The calls launched by the loop of [_all], from index [i] on. *)
Fixpoint launch (params : value) (method : adapter_method) (callback : cont)
  (cell : nat) (i count : nat) : list effect :=
  match count with
  | O => []
  | S count' =>
      Call method [get_index params i] (KItem cell i callback)
      :: launch params method callback cell (S i) count'
  end.

(** [new Array(params.length)] in [_all].  The length of an array is
    always a valid array length, so for an array the constructor returns. *)
Definition results_Array (params len : value) : option (list value) :=
  match params with
  | VArr items => Some (replicate (List.length items) VUndefined)
  | _ => new_Array len
  end.

(** [_all(params, method, callback)]: a fresh cell holds [results] and
    [pending], and one adapter call per item is launched.  [pending] starts
    at [params.length]; it is kept here as the number of iterations of the
    loop, which is its value whenever a callback exists to read it. *)
Definition _all (params : value) (method : adapter_method) (callback : cont) (h : heap)
  : outcome (heap * list effect) :=
  match get_field params "length" with
  | None => Throw
  | Some len =>
      match results_Array params len with
      | None => Throw
      | Some results =>
          let count := loop_bound len in
          let cell := List.length h in
          Ret ((h ++ [{| results := results; pending := Z.of_nat count |}])%list,
               launch params method callback cell 0 count)
      end
  end.

Definition _set (params : value) (callback : cont) (h : heap)
  : outcome (heap * list effect) :=
  match get_field params "key", get_field params "value" with
  | Some key, Some value => Ret (h, [Call A_setItem [key; value] callback])
  | _, _ => Throw
  end.

Definition _get (params : value) (callback : cont) (h : heap)
  : outcome (heap * list effect) :=
  match get_field params "keys" with
  | None => Throw
  | Some keys => _all keys A_getItem (KGet callback) h
  end.

Definition _del (params : value) (callback : cont) (h : heap)
  : outcome (heap * list effect) :=
  match get_field params "keys" with
  | None => Throw
  | Some keys => _all keys A_removeItem (KDel callback) h
  end.

Definition _clear (params : value) (callback : cont) (h : heap)
  : outcome (heap * list effect) :=
  Ret (h, [Call A_clear [] callback]).

Definition _getKeys (params : value) (callback : cont) (h : heap)
  : outcome (heap * list effect) :=
  Ret (h, [Call A_length [] (KLength callback)]).

(** The callback of [_all] for item [i], on the variables of its call: the
    state after it ran, and the arguments with which it invoked [callback],
    if it did.  [all_success] is its [else] branch. *)
Definition all_success (st : all_state) (i : nat) (v : value)
  : all_state * option (value * value) :=
  let results' := array_set (results st) i v in
  let pending' := pending st - 1 in
  ({| results := results'; pending := pending' |},
   if pending' =? 0 then Some (VNull, VArr results') else None).

Definition all_step (st : all_state) (i : nat) (err v : value)
  : all_state * option (value * value) :=
  if truthy err then (st, Some (err, VUndefined))
  else all_success st i v.

(** [callback(err, v)] for each kind of callback.  The cell of a [KItem] is
    the one its [_all] call allocated, so the lookup finds it. *)
Fixpoint apply_cont (k : cont) (err v : value) (h : heap) {struct k}
  : outcome (heap * list effect) :=
  match k with
  | KReply origin request =>
      if truthy err then
        match get_field err "message" with
        | None => Throw
        | Some message =>
            match _postMessage origin request message VUndefined with
            | Throw => Throw
            | Ret effs => Ret (h, effs)
            end
        end
      else
        match _postMessage origin request VUndefined v with
        | Throw => Throw
        | Ret effs => Ret (h, effs)
        end
  | KGet callback =>
      if truthy err then apply_cont callback err VUndefined h
      else
        match get_field v "length" with
        | None => Throw
        | Some len =>
            let result :=
              match len with
              | VNum n => if 1 <? n then v else get_index v 0
              | _ => get_index v 0
              end in
            if negb (truthy result) then apply_cont callback VNull VNull h
            else apply_cont callback VNull result h
        end
  | KDel callback =>
      if truthy err then apply_cont callback err VUndefined h
      else apply_cont callback VNull VUndefined h
  | KLength callback =>
      if truthy err then apply_cont callback err VUndefined h
      else
        match new_Array v with
        | None => Throw
        | Some indices =>
            let indices := VArr (map (fun i => VNum (Z.of_nat i)) (seq 0 (List.length indices))) in
            _all indices A_key callback h
        end
  | KItem cell i callback =>
      if truthy err then apply_cont callback err VUndefined h
      else
        match h !! cell with
        | None => Ret (h, [])
        | Some st =>
            let '(st', fired) := all_success st i v in
            let h' := <[cell := st']> h in
            match fired with
            | None => Ret (h', [])
            | Some (e, r) => apply_cont callback e r h'
            end
        end
  end.

(** The callback of [_listener] that a callback ends up invoking. *)
Fixpoint root (k : cont) : string * value :=
  match k with
  | KReply origin request => (origin, request)
  | KGet callback | KDel callback | KLength callback | KItem _ _ callback => root callback
  end.

(** *** Listener *)

(** A message event: the origin the browser reports and the payload, which
    the client library always sends as a string. *)
Record message := { msg_origin : string; msg_data : string }.

(** [CrossStorageHub['_' + method](params, callback)].  Calling [undefined]
    or a property that is not a function raises a TypeError.  A hub function
    other than the five handlers is only recorded as entered. *)
Definition dispatch (method : string) (params : value) (callback : cont) (h : heap)
  : outcome (heap * list effect) :=
  match hub_property ("_" +:+ method) with
  | Some P_set => _set params callback h
  | Some P_get => _get params callback h
  | Some P_del => _del params callback h
  | Some P_clear => _clear params callback h
  | Some P_getKeys => _getKeys params callback h
  | None | Some P_storageAdapter | Some P_permissions => Throw
  | Some (P_inherited name) =>
      if String.eqb name "__proto__" then Throw
      else Ret (h, [Enter (P_inherited name) params])
  | Some p => Ret (h, [Enter p params])
  end.

(** The branch [_listener] takes for a parsed request (source lines
    223-243). *)
Inductive route :=
| Dropped
| Denied (method : string)
| Dispatched (method : string).

Definition listener_route (permissions : list Entry.t) (origin : string) (request : value)
  : route :=
  if negb (truthy request) then Dropped
  else
    match get_field request "method" with
    | Some (VStr m) =>
        match split "cross-storage:" m !! 1%nat with
        | None => Dropped
        | Some method =>
            if String.eqb method "" then Dropped
            else if negb (_permitted permissions origin method) then Denied method
            else Dispatched method
        end
    | _ => Dropped
    end.

Definition listener_request (permissions : list Entry.t) (origin : string) (request : value)
  (h : heap) : outcome (heap * list effect) :=
  match listener_route permissions origin request with
  | Dropped => Ret (h, [])
  | Denied method =>
      match _postMessage origin request (VStr ("Invalid permissions for " +:+ method)) VUndefined with
      | Throw => Throw
      | Ret effs => Ret (h, effs)
      end
  | Dispatched method =>
      match get_field request "params" with
      | None => Throw
      | Some params => dispatch method params (KReply origin request) h
      end
  end.

(** The table after [_listener] handled a parsed request: as it was, unless
    [_permitted] was called. *)
Definition permissions_after_request (permissions : list Entry.t) (origin : string)
  (request : value) : list Entry.t :=
  match listener_route permissions origin request with
  | Dropped => permissions
  | Denied method | Dispatched method => permissions_after permissions origin method
  end.

(** [_listener(message)].  [JSON_parse] is the platform's parser, [None]
    standing for a SyntaxError. *)
Definition _listener (JSON_parse : string -> option value)
  (permissions : list Entry.t) (message : message) (h : heap)
  : outcome (heap * list effect) :=
  let origin := if String.eqb (msg_origin message) "null" then "file://" else msg_origin message in
  if String.eqb (msg_data message) "cross-storage:poll"
  then Ret (h, [Post Ready (msg_origin message)])
  else if String.eqb (msg_data message) "cross-storage:ready" then Ret (h, [])
  else
    match JSON_parse (msg_data message) with
    | None => Ret (h, [])
    | Some request => listener_request permissions origin request h
    end.

(** *** Initialisation *)

(** What reading [window.localStorage] gives. *)
Inductive local_storage :=
| LSPresent
| LSMissing
| LSDenied.

Inductive adapter_choice :=
| GivenAdapter
| LocalStorageAdapter.

(** The hub once [init] has run: its two fields, and whether the listener
    was installed. *)
Record hub := {
  _storageAdapter : adapter_choice;
  _permissions : list Entry.t;
  listening : bool
}.

(** [init(permissions, StorageAdapter)]; [StorageAdapter] says whether an
    adapter was passed.  [None]: storage is unavailable, the listener is not
    installed. *)
Definition init (permissions : permissions_arg) (StorageAdapter : bool)
  (localStorage : local_storage) : option hub * list effect :=
  let available :=
    if negb StorageAdapter
    then match localStorage with LSPresent => true | LSMissing | LSDenied => false end
    else true in
  if negb available then (None, [Post Unavailable "*"])
  else
    (Some {| _storageAdapter := if StorageAdapter then GivenAdapter else LocalStorageAdapter;
             _permissions :=
               match permissions with
               | PEntries entries => entries
               | PUndefined | PNull => []
               end;
             listening := true |},
     [Post Ready "*"]).

End Hub.

Import Hub.

(** ** The environment: completions of adapter calls *)

Module Run.

(** One callback invocation by the adapter: which call completes, and the
    [(err, value)] it completes with. *)
Definition completion : Type := nat * (value * value).

(** The callbacks of one [_all] call run in the order of [events], on the
    variables of that call; the second component lists the invocations of
    the consumer's [callback], oldest first. *)
Fixpoint all_run (st : all_state) (events : list completion)
  : all_state * list (value * value) :=
  match events with
  | [] => (st, [])
  | (i, (err, v)) :: rest =>
      let '(st', fired) := all_step st i err v in
      let '(st'', trace) := all_run st' rest in
      (st'', match fired with Some c => c :: trace | None => trace end)
  end.

(** The variables of an [_all] call over [n] items, before any callback. *)
Definition all_init (n : nat) : all_state :=
  {| results := replicate n VUndefined; pending := Z.of_nat n |}.

(** The hub and everything it has emitted so far.  A completion names the
    adapter call it answers by its position in [log]. *)
Record world := { w_heap : heap; w_log : list effect }.

Definition complete (w : world) (c : completion) : outcome world :=
  match w_log w !! c.1 with
  | Some (Call _ _ k) =>
      match apply_cont k c.2.1 c.2.2 (w_heap w) with
      | Throw => Throw
      | Ret (h, effs) => Ret {| w_heap := h; w_log := (w_log w ++ effs)%list |}
      end
  | _ => Ret w
  end.

Fixpoint run (w : world) (events : list completion) : outcome world :=
  match events with
  | [] => Ret w
  | c :: rest =>
      match complete w c with
      | Throw => Throw
      | Ret w' => run w' rest
      end
  end.

(** The messages posted, oldest first. *)
Fixpoint posts (log : list effect) : list (payload * string) :=
  match log with
  | [] => []
  | Post data target :: rest => (data, target) :: posts rest
  | _ :: rest => posts rest
  end.

(** The adapter calls still to be answered, given as many as [log] holds. *)
Fixpoint calls (log : list effect) : list (adapter_method * list value) :=
  match log with
  | [] => []
  | Call m args _ :: rest => (m, args) :: calls rest
  | _ :: rest => calls rest
  end.

End Run.

(** ** An adapter that stores what is written *)

Module Mem.

(** ToString, as [localStorage] applies it to a key. *)
Fixpoint to_string (v : value) : string :=
  match v with
  | VUndefined => "undefined"
  | VNull => "null"
  | VBool true => "true"
  | VBool false => "false"
  | VNum n => NilZero.string_of_int (Z.to_int n)
  | VStr s => s
  | VArr items =>
      (fix items_string (l : list value) : string :=
         match l with
         | [] => ""
         | x :: rest =>
             let e := match x with VUndefined | VNull => "" | _ => to_string x end in
             match rest with
             | [] => e
             | _ => e +:+ "," +:+ items_string rest
             end
         end) items
  | VObj _ => "[object Object]"
  end.

Definition arg (args : list value) (i : nat) : value := default VUndefined (args !! i).

(** What each adapter method does to the store when its turn comes, and the
    [(err, value)] it then passes to its callback.  Nothing fails. *)
Definition exec (store : gmap string value) (method : adapter_method) (args : list value)
  : gmap string value * (value * value) :=
  match method with
  | A_getItem => (store, (VNull, default VNull (store !! to_string (arg args 0))))
  | A_setItem => (<[to_string (arg args 0) := arg args 1]> store, (VNull, VUndefined))
  | A_removeItem => (delete (to_string (arg args 0)) store, (VNull, VUndefined))
  | A_key =>
      (store,
       (VNull,
        match arg args 0 with
        | VNum i =>
            if i <? 0 then VNull
            else default VNull (VStr <$> (map_to_list store).*1 !! Z.to_nat i)
        | _ => VNull
        end))
  | A_length => (store, (VNull, VNum (Z.of_nat (size store))))
  | A_clear => (∅, (VNull, VUndefined))
  end.

(** The event loop: effects are taken in the order they were emitted; a
    posted message is recorded, an adapter call is executed and its callback
    run, which may emit further effects.  [None]: the queue was not empty
    after [fuel] effects. *)
Fixpoint drive (fuel : nat) (store : gmap string value) (h : heap) (queue : list effect)
  : option (outcome (gmap string value * heap * list (payload * string))) :=
  match queue, fuel with
  | [], _ => Some (Ret (store, h, []))
  | _ :: _, O => None
  | Post data target :: rest, S fuel' =>
      match drive fuel' store h rest with
      | Some (Ret (store', h', out)) => Some (Ret (store', h', (data, target) :: out))
      | other => other
      end
  | Enter _ _ :: rest, S fuel' => drive fuel' store h rest
  | Call method args k :: rest, S fuel' =>
      let '(store', (err, v)) := exec store method args in
      match apply_cont k err v h with
      | Throw => Some Throw
      | Ret (h', effs) => drive fuel' store' h' (rest ++ effs)%list
      end
  end.

(** One inbound request served to quiescence. *)
Definition serve (fuel : nat) (permissions : list Entry.t) (origin : string) (request : value)
  (store : gmap string value) (h : heap)
  : option (outcome (gmap string value * heap * list (payload * string))) :=
  match listener_request permissions origin request h with
  | Throw => Some Throw
  | Ret (h', effs) => drive fuel store h' effs
  end.

End Mem.

Import Run.

(** ** The adapter over [localStorage] *)

Module Adapter.

(** [LocalStorageAdapter]: each method sets a timer and returns; what is
    modelled is the function the timer runs.  [W] is all the state that
    function can reach (the storage, and whatever its callback works on).
    [window.localStorage] belongs to the platform and is a parameter here:
    reading one of its properties or calling one of its methods gives a value
    or raises, and leaves a state. *)
Inductive access (W : Type) :=
| Gave (v : value) (w : W)
| Threw (exn : value) (w : W).
Arguments Gave {W} v w.
Arguments Threw {W} exn w.

(** A call of a callback returns or raises. *)
Inductive result (W : Type) :=
| Returned (w : W)
| Raised (exn : value) (w : W).
Arguments Returned {W} w.
Arguments Raised {W} exn w.

Record localStorage (W : Type) := {
  ls_getItem : value -> W -> access W;
  ls_setItem : value -> value -> W -> access W;
  ls_removeItem : value -> W -> access W;
  ls_key : value -> W -> access W;
  ls_length : W -> access W;
  ls_clear : W -> access W
}.
Arguments ls_getItem {W} _ _ _.
Arguments ls_setItem {W} _ _ _ _.
Arguments ls_removeItem {W} _ _ _.
Arguments ls_key {W} _ _ _.
Arguments ls_length {W} _ _.
Arguments ls_clear {W} _ _.

Definition getItem {W : Type} (window_localStorage : localStorage W) (key : value)
  (callback : value -> value -> W -> result W) (w : W) : result W :=
  match ls_getItem window_localStorage key w with
  | Gave v w1 =>
      match callback VNull v w1 with
      | Returned w2 => Returned w2
      | Raised err w2 => callback err VUndefined w2
      end
  | Threw err w1 => callback err VUndefined w1
  end.

Definition setItem {W : Type} (window_localStorage : localStorage W) (key value : JS.value)
  (callback : JS.value -> JS.value -> W -> result W) (w : W) : result W :=
  match ls_setItem window_localStorage key value w with
  | Gave v w1 =>
      match callback VNull v w1 with
      | Returned w2 => Returned w2
      | Raised err w2 => callback err VUndefined w2
      end
  | Threw err w1 => callback err VUndefined w1
  end.

Definition removeItem {W : Type} (window_localStorage : localStorage W) (key : value)
  (callback : value -> value -> W -> result W) (w : W) : result W :=
  match ls_removeItem window_localStorage key w with
  | Gave v w1 =>
      match callback VNull v w1 with
      | Returned w2 => Returned w2
      | Raised err w2 => callback err VUndefined w2
      end
  | Threw err w1 => callback err VUndefined w1
  end.

Definition key {W : Type} (window_localStorage : localStorage W) (index : value)
  (callback : value -> value -> W -> result W) (w : W) : result W :=
  match ls_key window_localStorage index w with
  | Gave v w1 =>
      match callback VNull v w1 with
      | Returned w2 => Returned w2
      | Raised err w2 => callback err VUndefined w2
      end
  | Threw err w1 => callback err VUndefined w1
  end.

Definition length {W : Type} (window_localStorage : localStorage W)
  (callback : value -> value -> W -> result W) (w : W) : result W :=
  match ls_length window_localStorage w with
  | Gave v w1 =>
      match callback VNull v w1 with
      | Returned w2 => Returned w2
      | Raised err w2 => callback err VUndefined w2
      end
  | Threw err w1 => callback err VUndefined w1
  end.

Definition clear {W : Type} (window_localStorage : localStorage W)
  (callback : value -> value -> W -> result W) (w : W) : result W :=
  match ls_clear window_localStorage w with
  | Gave v w1 =>
      match callback VNull v w1 with
      | Returned w2 => Returned w2
      | Raised err w2 => callback err VUndefined w2
      end
  | Threw err w1 => callback err VUndefined w1
  end.

(** [CrossStorageHub._storageAdapter[method](...args, callback)] when the
    adapter is [LocalStorageAdapter]; an argument not passed is
    [undefined]. *)
Definition call {W : Type} (window_localStorage : localStorage W) (method : adapter_method)
  (args : list value) (callback : value -> value -> W -> result W) (w : W) : result W :=
  let arg i := default VUndefined (args !! i) in
  match method with
  | A_getItem => getItem window_localStorage (arg 0%nat) callback w
  | A_setItem => setItem window_localStorage (arg 0%nat) (arg 1%nat) callback w
  | A_removeItem => removeItem window_localStorage (arg 0%nat) callback w
  | A_key => key window_localStorage (arg 0%nat) callback w
  | A_length => length window_localStorage callback w
  | A_clear => clear window_localStorage callback w
  end.

(** The access to [localStorage] that a method makes. *)
Definition storage_access {W : Type} (window_localStorage : localStorage W)
  (method : adapter_method) (args : list value) (w : W) : access W :=
  let arg i := default VUndefined (args !! i) in
  match method with
  | A_getItem => ls_getItem window_localStorage (arg 0%nat) w
  | A_setItem => ls_setItem window_localStorage (arg 0%nat) (arg 1%nat) w
  | A_removeItem => ls_removeItem window_localStorage (arg 0%nat) w
  | A_key => ls_key window_localStorage (arg 0%nat) w
  | A_length => ls_length window_localStorage w
  | A_clear => ls_clear window_localStorage w
  end.

(** A state with a record of the callback invocations made so far, oldest
    first, and a record of how often the storage was accessed. *)
Record observed (W : Type) := {
  inner : W;
  invocations : list (value * value);
  accesses : nat
}.
Arguments inner {W} _.
Arguments invocations {W} _.
Arguments accesses {W} _.

(** [callback], recording each invocation. *)
Definition recording {W : Type} (callback : value -> value -> W -> result W)
  (err v : value) (o : observed W) : result (observed W) :=
  let record w :=
    {| inner := w; invocations := invocations o ++ [(err, v)]; accesses := accesses o |} in
  match callback err v (inner o) with
  | Returned w => Returned (record w)
  | Raised exn w => Raised exn (record w)
  end.

Definition counting_access {W : Type} (a : W -> access W) (o : observed W)
  : access (observed W) :=
  let count w :=
    {| inner := w; invocations := invocations o; accesses := S (accesses o) |} in
  match a (inner o) with
  | Gave v w => Gave v (count w)
  | Threw exn w => Threw exn (count w)
  end.

(** [window_localStorage], counting each access. *)
Definition counting {W : Type} (window_localStorage : localStorage W)
  : localStorage (observed W) :=
  {| ls_getItem := fun key => counting_access (ls_getItem window_localStorage key);
     ls_setItem := fun key value => counting_access (ls_setItem window_localStorage key value);
     ls_removeItem := fun key => counting_access (ls_removeItem window_localStorage key);
     ls_key := fun index => counting_access (ls_key window_localStorage index);
     ls_length := counting_access (ls_length window_localStorage);
     ls_clear := counting_access (ls_clear window_localStorage) |}.

Definition final {W : Type} (r : result W) : W :=
  match r with Returned w | Raised _ w => w end.

End Adapter.

(** ** Sample data *)

Definition anyone : list Entry.t :=
  [{| Entry.origin := RegExp (fun _ => true);
      Entry.allow := VArr [VStr "get"; VStr "set"; VStr "del"; VStr "clear"; VStr "getKeys"] |}].

Definition request_of (id : Z) (method : string) (params : value) : value :=
  VObj [("id", VNum id); ("method", VStr ("cross-storage:" +:+ method)); ("params", params)].

Definition keys_params (keys : list value) : value := VObj [("keys", VArr keys)].

Definition set_params (key value : JS.value) : JS.value := VObj [("key", key); ("value", value)].

(** A failure as an adapter reports it. *)
Definition failure (message : string) : value := VObj [("message", VStr message)].

(** A table with an entry for another origin, a malformed entry, an entry
    that accepts the origin but lists only [get], and one that lists [set]. *)
Definition sample_table : list Entry.t :=
  [{| Entry.origin := RegExp (String.eqb "http://other"); Entry.allow := VArr [VStr "set"] |};
   {| Entry.origin := NotRegExp (VStr ".*"); Entry.allow := VArr [VStr "set"] |};
   {| Entry.origin := RegExp (String.eqb "http://site"); Entry.allow := VArr [VStr "get"] |};
   {| Entry.origin := RegExp (fun _ => true); Entry.allow := VArr [VStr "set"; VStr "launch"] |}].

(** [/^http:\/\/site$/g]: anchored at both ends, so that a match can
    only start at index 0 and then ends at the end of the string. *)
Definition site_g (s : string) (i : nat) : option nat :=
  if (i =? 0)%nat && String.eqb s "http://site" then Some (String.length s) else None.

(** A table whose one entry holds that RegExp, fresh. *)
Definition flagged_table : list Entry.t :=
  [{| Entry.origin := RegExpAt 0 site_g 0; Entry.allow := VArr [VStr "get"] |}].

(** ** Vocabulary of the statements *)

Definition marker : string := "cross-storage:".

(** The five method names of the protocol. *)
Definition recognized (method : string) : Prop :=
  In method ["get"; "set"; "del"; "clear"; "getKeys"].

(** The pattern of a RegExp accepts [origin]: its [test] answers true; for
    a RegExp with the [g] or [y] flag, it does so from some [lastIndex]. *)
Definition accepts (pattern : origin_field) (origin : string) : Prop :=
  match pattern with
  | RegExp test => test origin = true
  | RegExpAt _ exec _ =>
      exists lastIndex, (test_at exec lastIndex origin).1 = true
  | NotRegExp _ => False
  end.

(** A well-formed entry whose pattern accepts [origin] and whose allow-list
    contains [method]. *)
Definition grants (entry : Entry.t) (origin method : string) : Prop :=
  accepts (Entry.origin entry) origin /\
  exists allow, Entry.allow entry = VArr allow /\ In (VStr method) allow.

(** An entry whose [origin] is not a RegExp or whose [allow] is not an
    array. *)
Definition malformed (entry : Entry.t) : Prop :=
  (exists v, Entry.origin entry = NotRegExp v) \/
  (forall allow, Entry.allow entry <> VArr allow).

(** A table none of whose RegExps has the [g] or [y] flag. *)
Definition flagless (permissions : list Entry.t) : Prop :=
  forall entry object exec lastIndex,
    In entry permissions -> Entry.origin entry <> RegExpAt object exec lastIndex.

(** [s] holds the marker somewhere. *)
Definition has_marker (s : string) : Prop :=
  exists before after, s = before +:+ marker +:+ after.

(** An effect that is a call of the adapter. *)
Definition is_call (e : effect) : Prop :=
  match e with Call _ _ _ => True | _ => False end.

(** A call of the adapter whose callback leads back to the callback that
    [_listener] built for [request]. *)
Definition call_for (origin : string) (request : value) (e : effect) : Prop :=
  match e with
  | Call _ _ k => root k = (origin, request)
  | _ => False
  end.

(** The params a handler can read without raising: [_set] reads two
    properties of [params]; [_get] and [_del] read [params.keys] and hand it
    to [_all], which expects an array; [_clear] and [_getKeys] ignore
    [params]. *)
Definition params_fit (method : string) (params : value) : Prop :=
  if String.eqb method "set" then params <> VUndefined /\ params <> VNull
  else if String.eqb method "get" || String.eqb method "del"
       then exists keys, get_field params "keys" = Some (VArr keys)
       else True.

(** Where a reply to [origin] is sent. *)
Definition target (origin : string) : string :=
  if String.eqb origin "file://" then "*" else origin.

(** The result field of the reply to a [get] whose keys had the values
    [vs]. *)
Definition get_result (vs : list value) : value :=
  match vs with
  | [v] => if truthy v then v else VNull
  | _ => VArr vs
  end.

(** The [results] array after the successful callbacks [events] ran on
    it. *)
Definition store_all (results : list value) (events : list completion) : list value :=
  foldl (fun r c => array_set r c.1 c.2.2) results events.

Definition succeeded (c : completion) : bool := negb (truthy c.2.1).

Definition failed (c : completion) : bool := truthy c.2.1.

(** ** Vocabulary for runs of the hub *)

(** Completions that name their call by item index, moved to the place
    where the calls of one [_all] start in the log. *)
Definition shift (base : nat) (events : list completion) : list completion :=
  map (fun c => ((base + c.1)%nat, c.2)) events.

(** The one reply that answers [request]: it carries the id of the
    request, goes to the origin of the request, and has no error or no
    result. *)
Definition reply_for (origin : string) (request : value) (effs : list effect) : Prop :=
  exists id error result,
    effs = [Post (Reply id error result) (target origin)] /\
    get_field request "id" = Some id /\
    (error = VUndefined \/ result = VUndefined).

(** The callbacks the hub passes to the adapter: the listener's own from
    [_set] and [_clear], the one of [_getKeys], and the per-item ones of
    [_all] as called from [_get], [_del] and the callback of [_getKeys]. *)
Definition handed (k : cont) : Prop :=
  match k with
  | KReply _ _ => True
  | KLength (KReply _ _) => True
  | KItem _ _ (KGet (KReply _ _)) => True
  | KItem _ _ (KDel (KReply _ _)) => True
  | KItem _ _ (KReply _ _) => True
  | _ => False
  end.

(** An effect emitted on behalf of [request]: a call whose callback is one
    of those above and leads back to the request, or a posted message. *)
Definition handed_for (origin : string) (request : value) (e : effect) : Prop :=
  match e with
  | Call _ _ k => handed k /\ root k = (origin, request)
  | Post _ _ => True
  | Enter _ _ => False
  end.

(** The cells whose variables a callback can reach. *)
Fixpoint cells (k : cont) : list nat :=
  match k with
  | KReply _ _ => []
  | KGet callback | KDel callback | KLength callback => cells callback
  | KItem cell _ callback => cell :: cells callback
  end.

(** A call that reaches only cells of [known] or cells allocated at or
    after [fresh]. *)
Definition confined (known : list nat) (fresh : nat) (e : effect) : Prop :=
  match e with
  | Call _ _ k => forall c, In c (cells k) -> In c known \/ (fresh <= c)%nat
  | _ => True
  end.

(** The origin [_listener] works with. *)
Definition normalized (origin : string) : string :=
  if String.eqb origin "null" then "file://" else origin.

(** ** Strings *)

Section Strings.

Lemma app_cons c (s t : string) : String c s +:+ t = String c (s +:+ t).
Proof. reflexivity. Qed.

Lemma app_empty_l (s : string) : "" +:+ s = s.
Proof. reflexivity. Qed.

Lemma app_empty_r (s : string) : s +:+ "" = s.
Proof. induction s as [|c s IH]; [reflexivity|]. now rewrite app_cons, IH. Qed.

Lemma app_assoc' (s t u : string) : (s +:+ t) +:+ u = s +:+ (t +:+ u).
Proof.
  induction s as [|c s IH]; [reflexivity|].
  now rewrite !app_cons, IH.
Qed.

Lemma prefix_app (p s : string) :
  String.prefix p s = true <-> exists t, s = p +:+ t.
Proof.
  revert s. induction p as [|c p IH]; intros s.
  - split; [intros _; exists s; reflexivity|]. now destruct s.
  - destruct s as [|d s]; simpl.
    + split; [discriminate|]. intros [t Ht]. discriminate Ht.
    + destruct (ascii_dec c d) as [->|Hne].
      * rewrite IH. split; intros [t Ht]; exists t.
        -- now rewrite app_cons, Ht.
        -- rewrite app_cons in Ht. now injection Ht.
      * split; [discriminate|]. intros [t Ht].
        rewrite app_cons in Ht. injection Ht as Hc _. congruence.
Qed.

Lemma split_from_nonempty sep k cur s : split_from sep k cur s <> [].
Proof.
  revert k cur. induction s as [|c s IH]; intros k cur; cbn [split_from]; [discriminate|].
  destruct k; [|apply IH].
  destruct (String.prefix sep (String c s)); [discriminate|apply IH].
Qed.

(** Passing over the rest of a separator. *)
Lemma split_from_skip sep (u t : string) cur :
  split_from sep (String.length u) cur (u +:+ t) = split_from sep 0 cur t.
Proof.
  induction u as [|c u IH].
  - rewrite app_empty_l. destruct t; reflexivity.
  - rewrite app_cons. cbn [split_from String.length]. apply IH.
Qed.

(** A separator at the head closes the current piece. *)
Lemma split_from_marker c sep' (t cur : string) :
  split_from (String c sep') 0 cur (String c sep' +:+ t)
  = cur :: split_from (String c sep') 0 "" t.
Proof.
  rewrite app_cons.
  change (split_from (String c sep') 0 cur (String c (sep' +:+ t)))
    with (if String.prefix (String c sep') (String c (sep' +:+ t))
          then cur :: split_from (String c sep') (String.length (String c sep') - 1) "" (sep' +:+ t)
          else split_from (String c sep') 0 (cur +:+ String c "") (sep' +:+ t)).
  assert (Hp : String.prefix (String c sep') (String c (sep' +:+ t)) = true).
  { apply prefix_app. exists t. reflexivity. }
  rewrite Hp. f_equal.
  replace (String.length (String c sep') - 1)%nat with (String.length sep')
    by (simpl; lia).
  apply split_from_skip.
Qed.

Lemma join_cons sep p (rest : list string) :
  rest <> [] -> join sep (p :: rest) = p +:+ sep +:+ join sep rest.
Proof. destruct rest; [congruence|reflexivity]. Qed.

(** Joining the pieces gives the string back. *)
Lemma join_split_from c sep' (n : nat) : forall (s cur : string),
  (String.length s <= n)%nat ->
  join (String c sep') (split_from (String c sep') 0 cur s) = cur +:+ s.
Proof.
  induction n as [|n IH]; intros s cur Hlen.
  - destruct s; [|simpl in Hlen; lia]. simpl. now rewrite app_empty_r.
  - destruct s as [|d s]; [simpl; now rewrite app_empty_r|].
    destruct (String.prefix (String c sep') (String d s)) eqn:Hp.
    + apply prefix_app in Hp as [t Ht]. rewrite Ht, split_from_marker.
      rewrite join_cons by apply split_from_nonempty.
      rewrite IH; [reflexivity|].
      apply (f_equal String.length) in Ht. rewrite app_cons in Ht. simpl in Ht, Hlen.
      assert (String.length t <= String.length (sep' +:+ t))%nat; [|lia].
      clear. induction sep' as [|e sep' IH]; [reflexivity|].
      rewrite app_cons. simpl. lia.
    + change (split_from (String c sep') 0 cur (String d s))
        with (if String.prefix (String c sep') (String d s)
              then cur :: split_from (String c sep') (String.length (String c sep') - 1) "" s
              else split_from (String c sep') 0 (cur +:+ String d "") s).
      rewrite Hp, IH by (simpl in Hlen; lia).
      now rewrite app_assoc'.
Qed.

Lemma join_split (s : string) : join marker (split marker s) = s.
Proof. apply (join_split_from _ _ (String.length s)). lia. Qed.

(** The second piece of a split follows a marker. *)
Lemma split_second (s name : string) :
  split marker s !! 1%nat = Some name ->
  exists before after, s = before +:+ marker +:+ name +:+ after.
Proof.
  intros H. pose proof (join_split s) as Hj.
  destruct (split marker s) as [|p0 [|p1 rest]]; try discriminate.
  injection H as ->. exists p0.
  destruct rest as [|p2 rest].
  - exists "". rewrite app_empty_r. now rewrite <- Hj.
  - exists (marker +:+ join marker (p2 :: rest)). now rewrite <- Hj.
Qed.

(** Without a marker there is one piece. *)
Lemma split_from_no_marker (s : string) : forall cur,
  ~ has_marker s -> split_from marker 0 cur s = [cur +:+ s].
Proof.
  induction s as [|d s IH]; intros cur Hno; [simpl; now rewrite app_empty_r|].
  destruct (String.prefix marker (String d s)) eqn:Hp.
  - exfalso. apply Hno. apply prefix_app in Hp as [t Ht].
    exists "", t. now rewrite app_empty_l.
  - change (split_from marker 0 cur (String d s))
      with (if String.prefix marker (String d s)
            then cur :: split_from marker (String.length marker - 1) "" s
            else split_from marker 0 (cur +:+ String d "") s).
    rewrite Hp, IH; [now rewrite app_assoc'|].
    intros (before & after & ->). apply Hno.
    exists (String d before), after. now rewrite app_cons.
Qed.

Lemma split_exact (name : string) :
  ~ has_marker name -> split marker (marker +:+ name) = [""; name].
Proof.
  intros Hno. unfold split, marker. rewrite split_from_marker.
  fold marker. now rewrite split_from_no_marker.
Qed.

Lemma app_length' (s t : string) :
  String.length (s +:+ t) = (String.length s + String.length t)%nat.
Proof.
  induction s as [|c s IH]; [reflexivity|].
  rewrite app_cons. simpl. now rewrite IH.
Qed.

(** A name shorter than the marker holds none. *)
Lemma short_no_marker (name : string) :
  (String.length name < String.length marker)%nat -> ~ has_marker name.
Proof.
  intros Hlen (before & after & ->).
  rewrite !app_length' in Hlen. lia.
Qed.

Lemma get_name_no_marker : ~ has_marker "get".
Proof. apply short_no_marker. simpl. lia. Qed.

(** Two ways of cutting one string. *)
Lemma app_cut (x : string) : forall (y p t : string),
  x +:+ y = p +:+ t ->
  (exists u, x = p +:+ u) \/ (exists v, p = x +:+ v /\ y = v +:+ t).
Proof.
  induction x as [|c x IH]; intros y p t H.
  - right. exists p. now rewrite !app_empty_l in *.
  - destruct p as [|d p].
    + left. exists (String c x). now rewrite app_empty_l.
    + rewrite !app_cons in H. injection H as -> H.
      destruct (IH _ _ _ H) as [[u ->]|(v & -> & ->)].
      * left. exists u. now rewrite app_cons.
      * right. exists v. now rewrite app_cons.
Qed.

(** The marker's first character occurs nowhere else in it. *)
Lemma c_only_first (b v : string) : "ross-storage:" <> b +:+ String "c" v.
Proof.
  intros H.
  do 13 (destruct b as [|? b];
         [rewrite app_empty_l in H; discriminate H
         |rewrite app_cons in H; injection H as _ H]).
  destruct b; [rewrite app_empty_l in H|rewrite app_cons in H]; discriminate H.
Qed.

(** So no marker starts inside a marker-free text and runs into the marker
    that follows it. *)
Lemma no_straddle (c : ascii) (b rest : string) :
  ~ has_marker (String c b) ->
  String.prefix marker (String c b +:+ marker +:+ rest) = false.
Proof.
  intros Hno. destruct (String.prefix marker _) eqn:Hp; [exfalso|reflexivity].
  apply prefix_app in Hp as [t Ht].
  apply app_cut in Ht as [[u Hu]|(v & Hm & Hv)].
  - apply Hno. exists "", u. now rewrite app_empty_l.
  - destruct v as [|d v].
    + apply Hno. exists "", "". rewrite app_empty_l, app_empty_r.
      now rewrite app_empty_r in Hm.
    + unfold marker in Hv. rewrite !app_cons in Hv. injection Hv as <- _.
      unfold marker in Hm. rewrite app_cons in Hm. injection Hm as _ Hm.
      exact (c_only_first _ _ Hm).
Qed.

Lemma has_marker_cons (c : ascii) (s : string) :
  has_marker (String c s) -> String.prefix marker (String c s) = true \/ has_marker s.
Proof.
  intros (before & after & H). destruct before as [|d before].
  - left. apply prefix_app. exists after. now rewrite app_empty_l in H.
  - right. rewrite app_cons in H. injection H as _ ->. now exists before, after.
Qed.

(** The first piece of a split is the text before the first marker. *)
Lemma split_before (before rest : string) : forall cur,
  ~ has_marker before ->
  split_from marker 0 cur (before +:+ marker +:+ rest)
  = (cur +:+ before) :: split marker rest.
Proof.
  induction before as [|c b IH]; intros cur Hno.
  - rewrite app_empty_l, app_empty_r. unfold marker at 1 2. rewrite split_from_marker.
    reflexivity.
  - pose proof (no_straddle c b rest Hno) as Hp.
    rewrite app_cons in Hp |- *.
    change (split_from marker 0 cur (String c (b +:+ marker +:+ rest)))
      with (if String.prefix marker (String c (b +:+ marker +:+ rest))
            then cur :: split_from marker (String.length marker - 1) "" (b +:+ marker +:+ rest)
            else split_from marker 0 (cur +:+ String c "") (b +:+ marker +:+ rest)).
    rewrite Hp, IH; [now rewrite app_assoc'|].
    intros (x & y & ->). apply Hno. exists (String c x), y. now rewrite app_cons.
Qed.

(** A string holds no marker, or has a first one. *)
Lemma marker_cases (s : string) :
  ~ has_marker s \/
  exists before rest, s = before +:+ marker +:+ rest /\ ~ has_marker before.
Proof.
  induction s as [|c s IH].
  - left. apply short_no_marker. simpl. lia.
  - destruct (String.prefix marker (String c s)) eqn:Hp.
    { right. apply prefix_app in Hp as [t Ht]. exists "", t. split.
      - now rewrite app_empty_l.
      - apply short_no_marker. simpl. lia. }
    destruct IH as [Hno|(before & rest & -> & Hno)].
    + left. intros H. apply has_marker_cons in H as [H|H]; [congruence|contradiction].
    + right. exists (String c before), rest. split; [now rewrite app_cons|].
      intros H. apply has_marker_cons in H as [H|H]; [|contradiction].
      apply prefix_app in H as [u Hu].
      assert (String.prefix marker (String c (before +:+ marker +:+ rest)) = true);
        [|congruence].
      apply prefix_app. exists (u +:+ marker +:+ rest).
      now rewrite <- app_cons, Hu, app_assoc'.
Qed.

(** The second piece of a split is the text between the first marker and
    the next one or the end. *)
Lemma split_name (before name after : string) :
  ~ has_marker before -> ~ has_marker name ->
  after = "" \/ (exists t, after = marker +:+ t) ->
  split marker (before +:+ marker +:+ name +:+ after) !! 1%nat = Some name.
Proof.
  intros Hb Hn Hafter. unfold split. rewrite split_before by exact Hb.
  cbn [lookup list_lookup]. unfold split.
  destruct Hafter as [->|[t ->]].
  - rewrite app_empty_r, split_from_no_marker by exact Hn. reflexivity.
  - rewrite split_before by exact Hn. reflexivity.
Qed.

Lemma split_name_inv (s name : string) :
  split marker s !! 1%nat = Some name ->
  exists before after,
    s = before +:+ marker +:+ name +:+ after /\
    ~ has_marker before /\ ~ has_marker name /\
    (after = "" \/ exists t, after = marker +:+ t).
Proof.
  intros H. destruct (marker_cases s) as [Hno|(before & rest & -> & Hb)].
  { unfold split in H. rewrite split_from_no_marker in H by exact Hno. discriminate H. }
  unfold split in H. rewrite split_before in H by exact Hb.
  cbn [lookup list_lookup] in H. unfold split in H.
  destruct (marker_cases rest) as [Hno|(b2 & r2 & -> & Hb2)].
  - rewrite split_from_no_marker in H by exact Hno.
    rewrite app_empty_l in H. injection H as <-.
    exists before, "". rewrite app_empty_r. auto.
  - rewrite split_before in H by exact Hb2.
    rewrite app_empty_l in H. injection H as <-.
    exists before, (marker +:+ r2). repeat split; eauto.
Qed.

End Strings.

(** ** The authorizer *)

Section Authorizer.

Lemma inArray_In (method : string) (array : list value) :
  _inArray method array = true <-> In (VStr method) array.
Proof.
  induction array as [|x rest IH]; simpl; [split; [discriminate|tauto]|].
  destruct x as [| | | |s| |];
    try (rewrite IH; split; [tauto|intros [H|H]; [discriminate H|exact H]]).
  destruct (String.eqb method s) eqn:E.
  - apply String.eqb_eq in E as ->. split; auto.
  - apply String.eqb_neq in E. rewrite IH. split; [tauto|].
    intros [H|H]; [congruence|exact H].
Qed.

Lemma available_recognized (method : string) :
  _inArray method available = true <-> recognized method.
Proof.
  rewrite inArray_In. unfold available, recognized. simpl.
  split; intros H; repeat (destruct H as [H|H]; [try injection H as H; subst; tauto|]);
    try contradiction.
Qed.

(** A scan that answers true found a granting entry. *)
Lemma scan_from_true (permissions : list Entry.t) (origin method : string) :
  forall seen,
  (scan_from seen permissions origin method).1 = true ->
  exists entry, In entry permissions /\ grants entry origin method.
Proof.
  induction permissions as [|entry rest IH]; intros seen; cbn [scan_from].
  - discriminate.
  - assert (Hrest : (scan_from seen rest origin method).1 = true ->
              exists e, In e (entry :: rest) /\ grants e origin method).
    { intros H. destruct (IH _ H) as (e & Hin & Hg). exists e. split; [now right|exact Hg]. }
    destruct (Entry.allow entry) as [| | | | |allow|] eqn:Ha; try exact Hrest.
    destruct (Entry.origin entry) as [test|object exec lastIndex|v] eqn:Ho;
      [| |exact Hrest].
    + destruct (test origin && _inArray method allow) eqn:E; [|exact Hrest].
      intros _. apply andb_true_iff in E as [Ht Hin].
      exists entry. split; [now left|]. unfold grants. rewrite Ho, Ha. split; [exact Ht|].
      exists allow. split; [reflexivity|now apply inArray_In].
    + destruct (test_at exec (current seen object lastIndex) origin) as [b after] eqn:Et.
      destruct (b && _inArray method allow) eqn:E.
      * intros _. apply andb_true_iff in E as [-> Hin].
        exists entry. split; [now left|]. unfold grants. rewrite Ho, Ha. split.
        -- exists (current seen object lastIndex). now rewrite Et.
        -- exists allow. split; [reflexivity|now apply inArray_In].
      * intros H. destruct (IH _ H) as (e & Hin & Hg).
        exists e. split; [now right|exact Hg].
Qed.

Lemma flagless_cons (entry : Entry.t) (rest : list Entry.t) :
  flagless (entry :: rest) ->
  (forall object exec lastIndex, Entry.origin entry <> RegExpAt object exec lastIndex) /\
  flagless rest.
Proof.
  intros H. split.
  - intros object exec lastIndex. apply H. now left.
  - intros e object exec lastIndex Hin. apply H. now right.
Qed.

(** Without [g] or [y] nothing is written, and the scan answers true
    exactly when an entry grants. *)
Lemma scan_from_flagless (permissions : list Entry.t) (origin method : string) :
  flagless permissions ->
  forall seen,
  (scan_from seen permissions origin method).2 = seen /\
  ((scan_from seen permissions origin method).1 = true
   <-> exists entry, In entry permissions /\ grants entry origin method).
Proof.
  induction permissions as [|entry rest IH]; intros Hflag seen; cbn [scan_from].
  - split; [reflexivity|]. split; [discriminate|]. now intros (? & [] & _).
  - apply flagless_cons in Hflag as [Hentry Hrest].
    destruct (IH Hrest seen) as [Hseen Hiff].
    assert (Hskip : ~ grants entry origin method ->
              (scan_from seen rest origin method).2 = seen /\
              ((scan_from seen rest origin method).1 = true
               <-> exists e, In e (entry :: rest) /\ grants e origin method)).
    { intros Hno. split; [exact Hseen|]. rewrite Hiff. split.
      - intros (e & Hin & Hg). exists e. split; [now right|exact Hg].
      - intros (e & [<-|Hin] & Hg); [contradiction|]. now exists e. }
    destruct (Entry.allow entry) as [| | | | |allow|] eqn:Ha;
      try (apply Hskip; intros (_ & a & Hallow & _); rewrite Ha in Hallow; discriminate Hallow).
    destruct (Entry.origin entry) as [test|object exec lastIndex|v] eqn:Ho.
    + destruct (test origin && _inArray method allow) eqn:E.
      * split; [reflexivity|]. split; [|reflexivity]. intros _.
        apply andb_true_iff in E as [Ht Hin].
        exists entry. split; [now left|]. unfold grants. rewrite Ho, Ha. split; [exact Ht|].
        exists allow. split; [reflexivity|now apply inArray_In].
      * apply Hskip. unfold grants. rewrite Ho, Ha.
        intros (Ht & a & Hallow & Hin). injection Hallow as <-.
        apply inArray_In in Hin. simpl in Ht. rewrite Ht, Hin in E. discriminate E.
    + now destruct (Hentry object exec lastIndex).
    + apply Hskip. unfold grants. rewrite Ho. now intros [[] _].
Qed.

Lemma scan_grants (permissions : list Entry.t) (origin method : string) :
  flagless permissions ->
  scan permissions origin method = true
  <-> exists entry, In entry permissions /\ grants entry origin method.
Proof. intros Hflag. apply (scan_from_flagless permissions origin method Hflag []). Qed.


Lemma malformed_not_grants (entry : Entry.t) (origin method : string) :
  malformed entry -> ~ grants entry origin method.
Proof.
  intros [[v Hv]|Hallow] (Hacc & allow & Ha & _).
  - rewrite Hv in Hacc. exact Hacc.
  - exact (Hallow _ Ha).
Qed.


Lemma permitted_flagless (permissions : list Entry.t) (origin method : string) :
  flagless permissions ->
  _permitted permissions origin method = true
  <-> recognized method /\
      exists entry, In entry permissions /\ grants entry origin method.
Proof.
  intros Hflag. unfold _permitted.
  destruct (_inArray method available) eqn:Hav; simpl.
  - apply available_recognized in Hav. rewrite (scan_grants _ _ _ Hflag). tauto.
  - split; [discriminate|]. intros [H _]. apply available_recognized in H. congruence.
Qed.



Lemma sample_table_flagless : flagless sample_table.
Proof.
  intros entry object exec lastIndex Hin.
  repeat (destruct Hin as [<-|Hin]; [discriminate|]). destruct Hin.
Qed.


(** With the [g] flag the answer changes from one call to the next, for the
    same table object, origin and method. *)
Example permitted_alternates :
  _permitted flagged_table "http://site" "get" = true
  /\ _permitted (permissions_after flagged_table "http://site" "get") "http://site" "get"
     = false
  /\ permissions_after (permissions_after flagged_table "http://site" "get")
       "http://site" "get" = flagged_table.
Proof. repeat split. Qed.


End Authorizer.

(** ** The listener: which requests are taken up *)

Section Listener.

Lemma postMessage_truthy (origin : string) (request error result : value) :
  truthy request = true ->
  exists id, get_field request "id" = Some id /\
    _postMessage origin request error result
    = Ret [Post (Reply id error result) (if String.eqb origin "file://" then "*" else origin)].
Proof.
  intros Ht. unfold _postMessage.
  destruct request; try discriminate Ht; simpl; eauto.
Qed.

(** What [listener_route] answers, read off the request. *)
Lemma route_taken (permissions : list Entry.t) (origin : string) (request : value) (name : string) :
  listener_route permissions origin request = Denied name \/
  listener_route permissions origin request = Dispatched name ->
  name <> "" /\ truthy request = true /\
  listener_route permissions origin request
  = (if _permitted permissions origin name then Dispatched name else Denied name) /\
  exists m, get_field request "method" = Some (VStr m) /\
            split marker m !! 1%nat = Some name.
Proof.
  unfold listener_route.
  destruct (truthy request) eqn:Ht; simpl; [|intros [H|H]; discriminate H].
  destruct (get_field request "method") as [[| | | |m| |]|];
    try (intros [H|H]; discriminate H).
  fold marker. destruct (split marker m !! 1%nat) as [method|] eqn:Hs;
    [|intros [H|H]; discriminate H].
  destruct (String.eqb_spec method "") as [->|Hne]; [intros [H|H]; discriminate H|].
  destruct (_permitted permissions origin method) eqn:Hp; simpl.
  - intros [H|H]; [discriminate H|]. injection H as <-.
    rewrite Hp. repeat split; auto. exists m. now split.
  - intros [H|H]; [|discriminate H]. injection H as <-.
    rewrite Hp. repeat split; auto. exists m. now split.
Qed.

Lemma route_dropped (permissions : list Entry.t) (origin : string) (request : value) (h : heap) :
  listener_route permissions origin request = Dropped ->
  listener_request permissions origin request h = Ret (h, []).
Proof. unfold listener_request. now intros ->. Qed.

Lemma route_exact (permissions : list Entry.t) (origin : string) (request : value) (name : string) :
  truthy request = true ->
  get_field request "method" = Some (VStr (marker +:+ name)) ->
  name <> "" -> ~ has_marker name ->
  listener_route permissions origin request
  = if _permitted permissions origin name then Dispatched name else Denied name.
Proof.
  intros Ht Hm Hne Hno. unfold listener_route. rewrite Ht, Hm. simpl.
  fold marker. rewrite split_exact by assumption. simpl.
  apply String.eqb_neq in Hne. rewrite Hne.
  now destruct (_permitted permissions origin name).
Qed.

Lemma route_general (permissions : list Entry.t) (origin : string) (request : value)
  (before name after : string) :
  truthy request = true ->
  get_field request "method" = Some (VStr (before +:+ marker +:+ name +:+ after)) ->
  ~ has_marker before -> ~ has_marker name ->
  after = "" \/ (exists t, after = marker +:+ t) ->
  listener_route permissions origin request
  = if String.eqb name "" then Dropped
    else if _permitted permissions origin name then Dispatched name else Denied name.
Proof.
  intros Ht Hm Hb Hn Hafter. unfold listener_route. rewrite Ht, Hm. simpl.
  fold marker. rewrite split_name by assumption.
  destruct (String.eqb name ""); [reflexivity|].
  now destruct (_permitted permissions origin name).
Qed.

(** C5, as the code has it.  A parsed payload is taken up (dispatched, or
    answered with a permission error) only when it is truthy and its
    [method] field is a string in which the marker [cross-storage:] is
    followed by a non-empty name.  The name is fixed by the string: whenever
    the field reads [before ++ marker ++ name ++ after], where [before] and
    [name] hold no marker and [after] is empty or starts with a marker, the
    payload is dropped if [name] is empty and is taken up under [name]
    otherwise, so the name is the text between the first marker and the next
    one or the end, and [before] is ignored.  In particular a string of the
    exact form [cross-storage:<name>], with a non-empty name that holds no
    marker, is taken up under that name.  A payload that is falsy, whose
    [method] field is absent or not a string, holds no marker, or is the
    bare marker, is dropped: nothing is emitted and the hub state is
    unchanged. *)
Theorem listener_method_field (permissions : list Entry.t) (origin : string)
  (request : value) (h : heap) :
  (listener_request permissions origin request h <> Ret (h, []) ->
   exists name before after,
     name <> "" /\ truthy request = true /\
     get_field request "method" = Some (VStr (before +:+ marker +:+ name +:+ after)) /\
     ~ has_marker before /\ ~ has_marker name /\
     (after = "" \/ exists t, after = marker +:+ t) /\
     listener_route permissions origin request
     = if _permitted permissions origin name then Dispatched name else Denied name)
  /\ (forall before name after,
        truthy request = true ->
        get_field request "method" = Some (VStr (before +:+ marker +:+ name +:+ after)) ->
        ~ has_marker before -> ~ has_marker name ->
        after = "" \/ (exists t, after = marker +:+ t) ->
        listener_route permissions origin request
        = if String.eqb name "" then Dropped
          else if _permitted permissions origin name then Dispatched name else Denied name)
  /\ (forall name,
        truthy request = true ->
        get_field request "method" = Some (VStr (marker +:+ name)) ->
        name <> "" -> ~ has_marker name ->
        listener_route permissions origin request
        = if _permitted permissions origin name then Dispatched name else Denied name)
  /\ (truthy request = false \/
      (forall m, get_field request "method" <> Some (VStr m)) \/
      (exists m, get_field request "method" = Some (VStr m) /\ ~ has_marker m) \/
      get_field request "method" = Some (VStr marker) ->
      listener_request permissions origin request h = Ret (h, [])).
Proof.
  assert (Htaken : forall name,
            listener_route permissions origin request = Denied name \/
            listener_route permissions origin request = Dispatched name ->
            exists name' before after,
              name' <> "" /\ truthy request = true /\
              get_field request "method"
              = Some (VStr (before +:+ marker +:+ name' +:+ after)) /\
              ~ has_marker before /\ ~ has_marker name' /\
              (after = "" \/ exists t, after = marker +:+ t) /\
              listener_route permissions origin request
              = if _permitted permissions origin name' then Dispatched name'
                else Denied name').
  { intros name Hr.
    destruct (route_taken permissions origin request name Hr) as (Hne & Ht & Hp & m & Hm & Hs).
    apply split_name_inv in Hs as (before & after & -> & Hb & Hn & Hafter).
    exists name, before, after. rewrite <- Hp.
    split; [exact Hne|split; [exact Ht|split; [exact Hm|]]].
    split; [exact Hb|split; [exact Hn|split; [exact Hafter|reflexivity]]]. }
  split; [|split; [|split]].
  - intros Hemit.
    destruct (listener_route permissions origin request) as [|name|name] eqn:Hr.
    + exfalso. apply Hemit. now apply route_dropped.
    + apply (Htaken name). now left.
    + apply (Htaken name). now right.
  - intros before name after. apply route_general.
  - intros name. apply route_exact.
  - intros Hcase. apply route_dropped. unfold listener_route.
    destruct (truthy request) eqn:Ht; simpl; [|reflexivity].
    destruct Hcase as [H|[H|[(m & Hm & Hno)|H]]]; [discriminate H| | |].
    + destruct (get_field request "method") as [[| | | |m| |]|]; try reflexivity.
      now destruct (H m).
    + rewrite Hm. fold marker. unfold split. now rewrite split_from_no_marker.
    + rewrite H. reflexivity.
Qed.

Lemma listener_method_field_witness :
  listener_route anyone "http://site"
    (VObj [("id", VNum 7); ("method", VStr "xcross-storage:get");
           ("params", keys_params [VStr "a"])])
  = Dispatched "get"
  /\ listener_route anyone "http://site" (request_of 7 "get" (keys_params [VStr "a"]))
     = Dispatched "get"
  /\ listener_request anyone "http://site" (VObj [("id", VNum 7); ("method", VStr "get")]) []
     = Ret ([], []).
Proof.
  destruct (listener_method_field anyone "http://site"
              (VObj [("id", VNum 7); ("method", VStr "xcross-storage:get");
                     ("params", keys_params [VStr "a"])]) []) as (_ & Hgeneral & _).
  destruct (listener_method_field anyone "http://site"
              (request_of 7 "get" (keys_params [VStr "a"])) []) as (_ & _ & Hexact & _).
  destruct (listener_method_field anyone "http://site"
              (VObj [("id", VNum 7); ("method", VStr "get")]) []) as (_ & _ & _ & Hdrop).
  split; [|split].
  - rewrite (Hgeneral "x" "get" ""); [reflexivity|reflexivity|reflexivity| | |now left].
    + apply short_no_marker. simpl. lia.
    + apply get_name_no_marker.
  - rewrite (Hexact "get"); [reflexivity|reflexivity|reflexivity|discriminate|].
    apply get_name_no_marker.
  - apply Hdrop. right. right. left. exists "get". split; [reflexivity|].
    apply get_name_no_marker.
Defined.

(** With a [g]-flagged RegExp in the table the same request is taken up
    once and refused the next time. *)
Example request_alternates :
  let request := request_of 7 "get" (keys_params [VStr "a"]) in
  listener_route flagged_table "http://site" request = Dispatched "get"
  /\ listener_route (permissions_after_request flagged_table "http://site" request)
       "http://site" request = Denied "get".
Proof. split; reflexivity. Qed.

(** C5 as stated fails: a [method] field with text before the marker is not
    of the form [cross-storage:<name>], yet the request is dispatched. *)
Lemma exact_form_counterexample :
  ~ (forall (permissions : list Entry.t) (origin : string) (request : value) (h : heap),
       listener_request permissions origin request h <> Ret (h, []) ->
       exists name, name <> "" /\
         get_field request "method" = Some (VStr (marker +:+ name))).
Proof.
  intros H.
  destruct (H anyone "http://site"
              (VObj [("id", VNum 7); ("method", VStr "xcross-storage:get");
                     ("params", keys_params [VStr "a"])]) [])
    as (name & _ & Hm); [discriminate|].
  discriminate Hm.
Qed.

End Listener.

(** ** Dispatch *)

Section Dispatch.

Lemma launch_calls params method callback cell (count : nat) : forall i,
  Forall is_call (launch params method callback cell i count).
Proof.
  induction count as [|count IH]; intros i; simpl; constructor; [exact I|apply IH].
Qed.

Lemma all_calls params method callback (h h' : heap) (effs : list effect) :
  _all params method callback h = Ret (h', effs) -> Forall is_call effs.
Proof.
  unfold _all. destruct (get_field params "length") as [len|]; [|discriminate].
  destruct (results_Array params len); [|discriminate].
  intros H. injection H as _ <-. apply launch_calls.
Qed.

Lemma dispatch_handler (params : value) (k : cont) (h : heap) :
  dispatch "get" params k h = _get params k h /\
  dispatch "set" params k h = _set params k h /\
  dispatch "del" params k h = _del params k h /\
  dispatch "clear" params k h = _clear params k h /\
  dispatch "getKeys" params k h = _getKeys params k h.
Proof. repeat split. Qed.

(** The five handlers only ever call the adapter. *)
Lemma handler_calls (method : string) (params : value) (k : cont) (h h' : heap)
  (effs : list effect) :
  recognized method ->
  dispatch method params k h = Ret (h', effs) -> Forall is_call effs.
Proof.
  unfold recognized. simpl.
  destruct (dispatch_handler params k h) as (Hg & Hs & Hd & Hc & Hk).
  intros [<-|[<-|[<-|[<-|[<-|[]]]]]];
    rewrite ?Hg, ?Hs, ?Hd, ?Hc, ?Hk; clear Hg Hs Hd Hc Hk.
  - unfold _get. destruct (get_field params "keys"); [|discriminate]. apply all_calls.
  - unfold _set. destruct (get_field params "key"), (get_field params "value");
      try discriminate.
    intros H. injection H as _ <-. repeat constructor.
  - unfold _del. destruct (get_field params "keys"); [|discriminate]. apply all_calls.
  - intros H. injection H as _ <-. repeat constructor.
  - intros H. injection H as _ <-. repeat constructor.
Qed.

Lemma dispatched_permitted (permissions : list Entry.t) (origin : string) (request : value)
  (method : string) :
  listener_route permissions origin request = Dispatched method ->
  _permitted permissions origin method = true.
Proof.
  intros H.
  destruct (route_taken permissions origin request method) as (_ & _ & Hr & _);
    [now right|].
  rewrite H in Hr. destruct (_permitted permissions origin method); [reflexivity|discriminate Hr].
Qed.

(** C10.  Whatever message arrives and whatever the table holds, the
    property [CrossStorageHub['_' + method]] is called only for a [method]
    that [_permitted] accepted, hence one of the five recognized names; the
    property reached is then one of the handlers [_set], [_get], [_del],
    [_clear], [_getKeys], and what the listener emits never includes entering
    another function of the hub. *)
Theorem dispatch_confined (JSON_parse : string -> option value)
  (permissions : list Entry.t) (message : message) (h : heap) :
  (forall origin request method,
     listener_route permissions origin request = Dispatched method ->
     _permitted permissions origin method = true /\ recognized method /\
     exists p, hub_property ("_" +:+ method) = Some p /\
               In p [P_set; P_get; P_del; P_clear; P_getKeys])
  /\ (forall h' effs,
        _listener JSON_parse permissions message h = Ret (h', effs) ->
        forall p params, ~ In (Enter p params) effs).
Proof.
  split.
  - intros origin request method Hr.
    pose proof (dispatched_permitted _ _ _ _ Hr) as Hp.
    split; [exact Hp|].
    assert (Hrec : recognized method).
    { apply available_recognized. unfold _permitted in Hp.
      destruct (_inArray method available); [reflexivity|discriminate Hp]. }
    split; [exact Hrec|].
    unfold recognized in Hrec. simpl in Hrec.
    destruct Hrec as [<-|[<-|[<-|[<-|[<-|[]]]]]]; eexists; (split; [reflexivity|]);
      simpl; tauto.
  - intros h' effs. unfold _listener.
    destruct (String.eqb (msg_data message) "cross-storage:poll").
    { intros H. injection H as _ <-. intros p params [H|[]]. discriminate H. }
    destruct (String.eqb (msg_data message) "cross-storage:ready").
    { intros H. injection H as _ <-. intros p params []. }
    destruct (JSON_parse (msg_data message)) as [request|].
    2:{ intros H. injection H as _ <-. intros p params []. }
    set (origin := if String.eqb (msg_origin message) "null" then "file://"
                   else msg_origin message).
    unfold listener_request.
    destruct (listener_route permissions origin request) as [|name|name] eqn:Hr.
    + intros H. injection H as _ <-. intros p params [].
    + unfold _postMessage. destruct (get_field request "id"); [|discriminate].
      intros H. injection H as _ <-. intros p params [H|[]]. discriminate H.
    + destruct (get_field request "params") as [params|]; [|discriminate].
      intros Hd p params' Hin.
      assert (Hrec : recognized name).
      { apply available_recognized.
        pose proof (dispatched_permitted _ _ _ _ Hr) as Hp. unfold _permitted in Hp.
        destruct (_inArray name available); [reflexivity|discriminate Hp]. }
      pose proof (handler_calls _ _ _ _ _ _ Hrec Hd) as Hall.
      exact (proj1 (List.Forall_forall _ _) Hall _ Hin).
Qed.

Lemma dispatch_confined_witness :
  recognized "getKeys" /\
  forall p params,
    ~ In (Enter p params)
        match _listener (fun _ => Some (request_of 3 "getKeys" VNull)) anyone
                {| msg_origin := "http://site"; msg_data := "{...}" |} [] with
        | Ret (_, effs) => effs
        | Throw => []
        end.
Proof.
  destruct (dispatch_confined (fun _ => Some (request_of 3 "getKeys" VNull)) anyone
              {| msg_origin := "http://site"; msg_data := "{...}" |} []) as (Hroute & Hemit).
  split.
  - apply (Hroute "http://site" (request_of 3 "getKeys" VNull) "getKeys"). reflexivity.
  - intros p params. eapply Hemit. reflexivity.
Defined.

(** Without the check of [_permitted] the lookup by name would reach
    other properties of the hub. *)
Example dispatch_unchecked :
  dispatch "permitted" VNull (KReply "http://site" VNull) []
  = Ret ([], [Enter P_permitted VNull])
  /\ dispatch "_defineGetter__" VNull (KReply "http://site" VNull) []
     = Ret ([], [Enter (P_inherited "__defineGetter__") VNull])
  /\ dispatch "launch" VNull (KReply "http://site" VNull) [] = Throw.
Proof. repeat split. Qed.

End Dispatch.

(** ** Default deny *)

Section DefaultDeny.

Lemma permitted_empty (origin method : string) : _permitted [] origin method = false.
Proof. unfold _permitted. now destruct (_inArray method available). Qed.

(** C9.  When [init] is given no permissions (missing or null) and a storage
    path is usable (an adapter was passed, or [localStorage] is there), the
    listener is installed over an empty table.  Under it [_permitted] is false
    for every origin and method; no message makes the listener raise or call
    the adapter; and a request whose method is [cross-storage:<name>], with a
    non-empty name, is answered by one reply whose error is
    [Invalid permissions for <name>] and whose result is absent. *)
Theorem default_deny (permissions : permissions_arg) (StorageAdapter : bool)
  (localStorage : local_storage) :
  permissions = PUndefined \/ permissions = PNull ->
  StorageAdapter = true \/ localStorage = LSPresent ->
  exists hub,
    init permissions StorageAdapter localStorage = (Some hub, [Post Ready "*"]) /\
    listening hub = true /\ _permissions hub = [] /\
    (forall origin method, _permitted (_permissions hub) origin method = false) /\
    (forall JSON_parse message h,
       exists effs,
         _listener JSON_parse (_permissions hub) message h = Ret (h, effs) /\
         calls effs = []) /\
    (forall JSON_parse message h request name,
       msg_data message <> "cross-storage:poll" ->
       msg_data message <> "cross-storage:ready" ->
       JSON_parse (msg_data message) = Some request ->
       truthy request = true ->
       get_field request "method" = Some (VStr (marker +:+ name)) ->
       name <> "" -> ~ has_marker name ->
       exists id,
         get_field request "id" = Some id /\
         _listener JSON_parse (_permissions hub) message h
         = Ret (h, [Post (Reply id (VStr ("Invalid permissions for " +:+ name)) VUndefined)
                      (if String.eqb (msg_origin message) "null" then "*"
                       else if String.eqb (msg_origin message) "file://" then "*"
                       else msg_origin message)])).
Proof.
  intros Hperm Havail.
  exists {| _storageAdapter := if StorageAdapter then GivenAdapter else LocalStorageAdapter;
            _permissions := []; listening := true |}.
  split; [|split; [reflexivity|split; [reflexivity|split; [|split]]]]; simpl.
  - unfold init.
    destruct Havail as [->| ->], Hperm as [->| ->]; simpl; try reflexivity;
      destruct StorageAdapter; reflexivity.
  - apply permitted_empty.
  - intros JSON_parse message h. unfold _listener.
    destruct (String.eqb (msg_data message) "cross-storage:poll"); [eexists; split; reflexivity|].
    destruct (String.eqb (msg_data message) "cross-storage:ready"); [eexists; split; reflexivity|].
    destruct (JSON_parse (msg_data message)) as [request|]; [|eexists; split; reflexivity].
    set (origin := if String.eqb (msg_origin message) "null" then "file://"
                   else msg_origin message).
    unfold listener_request.
    destruct (listener_route [] origin request) as [|name|name] eqn:Hr.
    + eexists; split; reflexivity.
    + destruct (route_taken [] origin request name) as (_ & Ht & _); [now left|].
      destruct (postMessage_truthy origin request
                  (VStr ("Invalid permissions for " +:+ name)) VUndefined Ht) as (id & _ & ->).
      eexists; split; reflexivity.
    + apply dispatched_permitted in Hr. rewrite permitted_empty in Hr. discriminate Hr.
  - intros JSON_parse message h request name Hpoll Hready Hparse Ht Hm Hne Hno.
    unfold _listener.
    apply String.eqb_neq in Hpoll, Hready. rewrite Hpoll, Hready, Hparse.
    set (origin := if String.eqb (msg_origin message) "null" then "file://"
                   else msg_origin message).
    unfold listener_request.
    rewrite (route_exact [] origin request name Ht Hm Hne Hno), permitted_empty.
    destruct (postMessage_truthy origin request
                (VStr ("Invalid permissions for " +:+ name)) VUndefined Ht) as (id & Hid & ->).
    exists id. split; [exact Hid|]. f_equal. f_equal. f_equal. f_equal.
    subst origin. destruct (String.eqb (msg_origin message) "null"); reflexivity.
Qed.

Lemma default_deny_witness :
  exists hub,
    init PNull false LSPresent = (Some hub, [Post Ready "*"]) /\
    _listener (fun _ => Some (request_of 5 "get" (keys_params [VStr "a"])))
      (_permissions hub) {| msg_origin := "http://site"; msg_data := "{...}" |} []
    = Ret ([], [Post (Reply (VNum 5) (VStr "Invalid permissions for get") VUndefined)
                  "http://site"]).
Proof.
  destruct (default_deny PNull false LSPresent) as (hub & Hinit & _ & _ & _ & _ & Hreq);
    [now right|now right|].
  exists hub. split; [exact Hinit|].
  destruct (Hreq (fun _ => Some (request_of 5 "get" (keys_params [VStr "a"])))
              {| msg_origin := "http://site"; msg_data := "{...}" |} []
              (request_of 5 "get" (keys_params [VStr "a"])) "get")
    as (id & Hid & Hrun);
    [discriminate|discriminate|reflexivity|reflexivity|reflexivity|discriminate
    |apply get_name_no_marker|].
  injection Hid as <-. exact Hrun.
Defined.

End DefaultDeny.

(** ** Failures *)

Section Failures.

Lemma launch_call_for origin request params method callback cell (count : nat) :
  root callback = (origin, request) ->
  forall i, Forall (call_for origin request) (launch params method callback cell i count).
Proof.
  intros Hroot. induction count as [|count IH]; intros i; simpl; constructor;
    [exact Hroot|apply IH].
Qed.

Lemma all_array (keys : list value) (method : adapter_method) (callback : cont) (h : heap) :
  _all (VArr keys) method callback h
  = Ret (h ++ [all_init (List.length keys)],
         launch (VArr keys) method callback (List.length h) 0 (List.length keys)).
Proof.
  unfold _all, all_init. simpl. now rewrite Nat2Z.id.
Qed.

(** A failure handed to any callback of the hub comes out as one reply
    that carries the failure's message; the hub state is left as it was. *)
Lemma failure_reply (k : cont) : forall (origin : string) (request err v : value) (h : heap),
  root k = (origin, request) -> truthy request = true -> truthy err = true ->
  exists id message,
    get_field request "id" = Some id /\ get_field err "message" = Some message /\
    apply_cont k err v h = Ret (h, [Post (Reply id message VUndefined) (target origin)]).
Proof.
  induction k as [o r|k IH|k IH|k IH|cell i k IH]; intros origin request err v h Hroot Hreq Herr;
    simpl in Hroot |- *; rewrite Herr; try (now apply IH).
  injection Hroot as -> ->.
  assert (exists message, get_field err "message" = Some message) as [message Hm].
  { destruct err; try discriminate Herr; simpl; eauto. }
  destruct (postMessage_truthy origin request message VUndefined Hreq) as (id & Hid & Hpost).
  exists id, message. rewrite Hm, Hpost. auto.
Qed.

(** C4, as the code has it.  For a request that reaches the dispatch step:
    when [params] has the shape the chosen handler reads, the listener
    returns without raising and only calls the adapter, each call carrying a
    callback for this request; every failure the adapter later reports
    to such a callback is turned into one reply whose error is the failure's
    message and whose result is absent; and when [params] is missing or null
    and the method is [get], [set] or [del], the handler raises inside the
    listener, which does not catch it: nothing is posted. *)
Theorem dispatch_failures (permissions : list Entry.t) (origin : string)
  (request : value) (method : string) (h : heap) :
  listener_route permissions origin request = Dispatched method ->
  exists params,
    get_field request "params" = Some params /\
    (params_fit method params ->
     exists h' effs,
       listener_request permissions origin request h = Ret (h', effs) /\
       Forall (call_for origin request) effs) /\
    (forall k err v h1,
       root k = (origin, request) -> truthy err = true ->
       exists id message,
         get_field request "id" = Some id /\ get_field err "message" = Some message /\
         apply_cont k err v h1
         = Ret (h1, [Post (Reply id message VUndefined) (target origin)])) /\
    (In method ["get"; "set"; "del"] ->
     params = VUndefined \/ params = VNull ->
     listener_request permissions origin request h = Throw).
Proof.
  intros Hr.
  destruct (route_taken permissions origin request method) as (_ & Ht & _); [now right|].
  assert (exists params, get_field request "params" = Some params) as [params Hp].
  { destruct request; try discriminate Ht; simpl; eauto. }
  exists params. split; [exact Hp|split; [|split]]; cycle 2.
  { intros Hin Hmissing. unfold listener_request. rewrite Hr, Hp.
    destruct (dispatch_handler params (KReply origin request) h) as (Hg & Hs & Hd & _).
    simpl in Hin. destruct Hin as [<-|[<-|[<-|[]]]]; rewrite ?Hg, ?Hs, ?Hd;
      destruct Hmissing as [->| ->]; reflexivity. }
  - intros Hfit. unfold listener_request. rewrite Hr, Hp.
    assert (Hrec : recognized method).
    { apply available_recognized. apply dispatched_permitted in Hr.
      unfold _permitted in Hr.
      destruct (_inArray method available); [reflexivity|discriminate Hr]. }
    destruct (dispatch_handler params (KReply origin request) h) as (Hg & Hs & Hd & Hc & Hk).
    unfold recognized in Hrec. simpl in Hrec.
    destruct Hrec as [<-|[<-|[<-|[<-|[<-|[]]]]]];
      rewrite ?Hg, ?Hs, ?Hd, ?Hc, ?Hk; clear Hg Hs Hd Hc Hk.
    + destruct Hfit as [keys Hkeys]. unfold _get. rewrite Hkeys, all_array.
      eexists _, _. split; [reflexivity|]. now apply launch_call_for.
    + destruct Hfit as [Hu Hn]. unfold _set.
      destruct params; try congruence; simpl;
        (eexists _, _; split; [reflexivity|repeat constructor]).
    + destruct Hfit as [keys Hkeys]. unfold _del. rewrite Hkeys, all_array.
      eexists _, _. split; [reflexivity|]. now apply launch_call_for.
    + eexists _, _. split; [reflexivity|repeat constructor].
    + eexists _, _. split; [reflexivity|repeat constructor].
  - intros k err v h1 Hroot Herr. now apply failure_reply.
Qed.

Lemma dispatch_failures_witness :
  (exists h' effs,
     listener_request anyone "http://site" (request_of 4 "del" (keys_params [VStr "a"])) []
     = Ret (h', effs) /\
     Forall (call_for "http://site" (request_of 4 "del" (keys_params [VStr "a"]))) effs)
  /\ (exists id message,
        apply_cont
          (KItem 0 0 (KDel (KReply "http://site" (request_of 4 "del" (keys_params [VStr "a"])))))
          (VObj [("message", VStr "access denied")]) VUndefined [all_init 1]
        = Ret ([all_init 1], [Post (Reply id message VUndefined) "http://site"]))
  /\ listener_request anyone "http://site"
       (VObj [("id", VNum 4); ("method", VStr "cross-storage:set")]) [] = Throw
  /\ listener_request anyone "http://site" (request_of 4 "del" VNull) [] = Throw.
Proof.
  destruct (dispatch_failures anyone "http://site"
              (request_of 4 "del" (keys_params [VStr "a"])) "del" [])
    as (params & Hp & Hfit & Hfail & _); [reflexivity|].
  destruct (dispatch_failures anyone "http://site"
              (VObj [("id", VNum 4); ("method", VStr "cross-storage:set")]) "set" [])
    as (missing & Hmissing & _ & _ & Hset); [reflexivity|].
  destruct (dispatch_failures anyone "http://site" (request_of 4 "del" VNull) "del" [])
    as (null & Hnull & _ & _ & Hdel); [reflexivity|].
  injection Hp as <-. injection Hmissing as <-. injection Hnull as <-.
  split; [|split; [|split]].
  - apply Hfit. exists [VStr "a"]. reflexivity.
  - destruct (Hfail (KItem 0 0 (KDel (KReply "http://site"
                       (request_of 4 "del" (keys_params [VStr "a"])))))
                (VObj [("message", VStr "access denied")]) VUndefined [all_init 1])
      as (id & message & _ & _ & Hrun); [reflexivity|reflexivity|].
    exists id, message. exact Hrun.
  - apply Hset; [simpl; tauto|now left].
  - apply Hdel; [simpl; tauto|now right].
Defined.

(** C4 as stated fails: a permitted [get] whose [params] is missing reaches
    the dispatch step, and the listener raises. *)
Lemma missing_params_counterexample :
  ~ (forall (permissions : list Entry.t) (origin : string) (request : value)
       (method : string) (h : heap),
       listener_route permissions origin request = Dispatched method ->
       listener_request permissions origin request h <> Throw).
Proof.
  intros H.
  apply (H anyone "http://site" (VObj [("id", VNum 4); ("method", VStr "cross-storage:get")])
           "get" []); reflexivity.
Qed.

End Failures.

(** ** The aggregator *)

Section Aggregator.

Lemma all_run_cons (st : all_state) (c : completion) (rest : list completion) :
  all_run st (c :: rest)
  = ((all_run (all_step st c.1 c.2.1 c.2.2).1 rest).1,
     match (all_step st c.1 c.2.1 c.2.2).2 with
     | Some inv => inv :: (all_run (all_step st c.1 c.2.1 c.2.2).1 rest).2
     | None => (all_run (all_step st c.1 c.2.1 c.2.2).1 rest).2
     end).
Proof.
  destruct c as [i [err v]]. simpl.
  destruct (all_step st i err v) as [st' fired]. simpl.
  now destruct (all_run st' rest).
Qed.

Lemma all_run_app (st : all_state) (a b : list completion) :
  all_run st (a ++ b)
  = ((all_run (all_run st a).1 b).1, (all_run st a).2 ++ (all_run (all_run st a).1 b).2).
Proof.
  revert st. induction a as [|c a IH]; intros st.
  - simpl. now destruct (all_run st b).
  - rewrite <- app_comm_cons, !all_run_cons, IH. simpl.
    now destruct (all_step st c.1 c.2.1 c.2.2).2.
Qed.

(** While more successes are awaited than arrive, nothing is delivered. *)
Lemma all_run_pending (events : list completion) : forall (st : all_state),
  forallb succeeded events = true ->
  Z.of_nat (List.length events) < pending st ->
  all_run st events
  = ({| results := store_all (results st) events;
        pending := pending st - Z.of_nat (List.length events) |}, []).
Proof.
  induction events as [|c events IH]; intros st Hok Hlt.
  - simpl. rewrite Z.sub_0_r. now destruct st.
  - simpl in Hok. apply andb_true_iff in Hok as [Hc Hok].
    rewrite all_run_cons. unfold all_step.
    unfold succeeded in Hc. apply negb_true_iff in Hc. rewrite Hc.
    unfold all_success. cbn [fst snd].
    simpl List.length in Hlt.
    destruct (Z.eqb_spec (pending st - 1) 0) as [E|E]; [lia|].
    rewrite IH by (simpl; (assumption || lia)).
    cbn [fst snd results pending]. f_equal. f_equal.
    simpl List.length. lia.
Qed.

(** The last awaited success delivers the array. *)
Lemma all_run_last (events : list completion) (st : all_state) :
  events <> [] ->
  forallb succeeded events = true ->
  Z.of_nat (List.length events) = pending st ->
  all_run st events
  = ({| results := store_all (results st) events; pending := 0 |},
     [(VNull, VArr (store_all (results st) events))]).
Proof.
  intros Hne Hok Hlen.
  destruct (exists_last Hne) as (init & [i [err v]] & ->).
  rewrite forallb_app in Hok. apply andb_true_iff in Hok as [Hinit Hlast].
  rewrite length_app in Hlen. simpl in Hlen, Hlast.
  rewrite all_run_app, (all_run_pending init st) by (assumption || lia). cbn [fst snd].
  rewrite all_run_cons. cbn [fst snd all_run]. unfold all_step.
  unfold succeeded in Hlast. rewrite andb_true_r in Hlast.
  apply negb_true_iff in Hlast. cbn [fst snd] in Hlast. rewrite Hlast.
  unfold all_success. cbn [fst snd results pending].
  replace (pending st - Z.of_nat (List.length init) - 1) with 0 by lia.
  unfold store_all. rewrite foldl_app. reflexivity.
Qed.

(** Each index written with its own value, all indices written: the array
    is the list of values, whatever the order. *)
Lemma store_all_complete (vs : list value) (events : list completion) :
  forall (r : list value),
  List.length r = List.length vs ->
  Forall (fun c => vs !! c.1 = Some c.2.2) events ->
  (forall i, (i < List.length vs)%nat -> In i events.*1 \/ r !! i = vs !! i) ->
  store_all r events = vs.
Proof.
  induction events as [|c events IH]; intros r Hlen Hval Hcover.
  - simpl. apply list_eq. intros i.
    destruct (Nat.lt_ge_cases i (List.length vs)) as [Hi|Hi].
    + destruct (Hcover i Hi) as [[]|H]. exact H.
    + rewrite !lookup_ge_None_2; [reflexivity|lia|lia].
  - apply Forall_cons in Hval as [Hc Hval].
    assert (Hin : (c.1 < List.length r)%nat).
    { rewrite Hlen. eapply lookup_lt_Some, Hc. }
    change (store_all r (c :: events)) with (store_all (array_set r c.1 c.2.2) events).
    unfold array_set. apply Nat.ltb_lt in Hin as Hb. rewrite Hb.
    apply IH; [now rewrite length_insert|exact Hval|].
    intros i Hi. destruct (Nat.eq_dec i c.1) as [->|Hne].
    + right. now rewrite list_lookup_insert_eq.
    + rewrite list_lookup_insert_ne by congruence.
      destruct (Hcover i Hi) as [[H|H]|H]; [congruence|now left|now right].
Qed.

(** What a run delivers as long as not all awaited successes arrive: one
    invocation per failure, in the order the failures arrive, and never an
    array of results. *)
Lemma all_run_failures (events : list completion) : forall (st : all_state),
  Z.of_nat (List.length (List.filter succeeded events)) < pending st ->
  (all_run st events).2 = map (fun c => (c.2.1, VUndefined)) (List.filter failed events).
Proof.
  induction events as [|c events IH]; intros st Hlt; [reflexivity|].
  rewrite all_run_cons. cbn [snd]. unfold all_step.
  simpl List.filter in *. unfold succeeded, failed in *.
  destruct (truthy c.2.1) eqn:E; simpl in Hlt |- *.
  - f_equal. now apply IH.
  - unfold all_success. cbn [fst snd].
    destruct (Z.eqb_spec (pending st - 1) 0) as [E0|E0]; [lia|].
    apply IH. simpl. lia.
Qed.

End Aggregator.

(** ** Runs of the hub *)

Section HubRuns.

Lemma run_app (w : world) (a b : list completion) :
  run w (a ++ b) = match run w a with Throw => Throw | Ret w' => run w' b end.
Proof.
  revert w. induction a as [|c a IH]; intros w; [reflexivity|].
  simpl. destruct (complete w c); [reflexivity|apply IH].
Qed.

Lemma launch_lookup params method callback cell (count : nat) : forall (i j : nat),
  (j < count)%nat ->
  launch params method callback cell i count !! j
  = Some (Call method [get_index params (i + j)] (KItem cell (i + j) callback)).
Proof.
  induction count as [|count IH]; intros i j Hj; [lia|].
  destruct j as [|j]; simpl.
  - now rewrite Nat.add_0_r.
  - rewrite IH by lia. now replace (S i + j)%nat with (i + S j)%nat by lia.
Qed.

Lemma launch_calls_list params method callback cell (count : nat) : forall (i : nat),
  calls (launch params method callback cell i count)
  = map (fun j => (method, [get_index params j])) (seq i count).
Proof.
  induction count as [|count IH]; intros i; [reflexivity|].
  simpl. now rewrite IH.
Qed.

Lemma store_all_snoc (r : list value) (init : list completion) (i : nat) (err v : value) :
  array_set (store_all r init) i v
  = store_all r (init ++ @cons completion (i, (err, v)) (@nil completion)).
Proof. unfold store_all. now rewrite foldl_app. Qed.

Lemma launch_posts params method callback cell (count : nat) : forall (i : nat),
  posts (launch params method callback cell i count) = [].
Proof. induction count as [|count IH]; intros i; [reflexivity|apply IH]. Qed.

Lemma indexed_items (keys : list value) :
  map (fun j => get_index (VArr keys) j) (seq 0 (List.length keys)) = keys.
Proof.
  apply list_eq. intros i. rewrite list_lookup_fmap.
  destruct (Nat.lt_ge_cases i (List.length keys)) as [Hi|Hi].
  - rewrite lookup_seq_lt by lia. simpl.
    destruct (lookup_lt_is_Some_2 keys i Hi) as [x Hx]. now rewrite Hx.
  - rewrite lookup_seq_ge, lookup_ge_None_2 by lia. reflexivity.
Qed.

(** The callbacks of one [_all] call, run through the hub, act on the cell
    of that call as [all_run] says, as long as more successes are awaited
    than arrive. *)
Lemma run_items (log : list effect) (cell n : nat) (callback : cont)
  (events : list completion) : forall (h : heap) (st : all_state),
  (forall i, (i < n)%nat ->
     exists method args, log !! i = Some (Call method args (KItem cell i callback))) ->
  h !! cell = Some st ->
  Forall (fun c => truthy c.2.1 = false /\ (c.1 < n)%nat) events ->
  Z.of_nat (List.length events) < pending st ->
  run {| w_heap := h; w_log := log |} events
  = Ret {| w_heap := <[cell := (all_run st events).1]> h; w_log := log |}.
Proof.
  induction events as [|c events IH]; intros h st Hlog Hcell Hok Hlt.
  - cbn [run all_run fst]. now rewrite list_insert_id.
  - apply Forall_cons in Hok as [[He Hi] Hok].
    destruct (Hlog _ Hi) as (method & args & Hl).
    simpl List.length in Hlt.
    cbn [run]. unfold complete. cbn [w_log w_heap]. rewrite Hl.
    cbn [apply_cont]. rewrite He, Hcell.
    rewrite all_run_cons. cbn [fst]. unfold all_step. rewrite He.
    unfold all_success. cbn [fst snd].
    destruct (Z.eqb_spec (pending st - 1) 0) as [E|E]; [lia|].
    rewrite app_nil_r.
    set (st' := {| results := array_set (results st) c.1 c.2.2; pending := pending st - 1 |}).
    rewrite (IH (<[cell := st']> h) st').
    + now rewrite list_insert_insert_eq.
    + exact Hlog.
    + apply list_lookup_insert_eq. eapply lookup_lt_Some, Hcell.
    + exact Hok.
    + unfold st'. cbn [pending]. lia.
Qed.

(** The success that brings [pending] to zero hands the array on. *)
Lemma item_last (cell i : nat) (callback : cont) (h : heap) (st : all_state) (err v : value) :
  truthy err = false -> h !! cell = Some st -> pending st = 1 ->
  apply_cont (KItem cell i callback) err v h
  = apply_cont callback VNull (VArr (array_set (results st) i v))
      (<[cell := {| results := array_set (results st) i v; pending := 0 |}]> h).
Proof.
  intros He Hcell Hp. cbn [apply_cont]. rewrite He, Hcell.
  unfold all_success. now rewrite Hp.
Qed.

(** The callback of [_get] shapes a non-empty array of values. *)
Lemma get_done (callback : cont) (vs : list value) (h : heap) :
  vs <> [] ->
  apply_cont (KGet callback) VNull (VArr vs) h = apply_cont callback VNull (get_result vs) h.
Proof.
  intros Hne. cbn [apply_cont truthy get_field].
  change (String.eqb "length" "length") with true. cbv iota.
  destruct vs as [|v0 [|v1 vs']]; [congruence| |].
  - simpl. now destruct (truthy v0).
  - cbn [get_result].
    destruct (Z.ltb_spec 1 (Z.of_nat (List.length (v0 :: v1 :: vs')))) as [_|Hf];
      [reflexivity|simpl List.length in Hf; lia].
Qed.

(** The callback of [_listener] posts a success. *)
Lemma reply_done (origin : string) (request v : value) (h : heap) (id : value) :
  truthy request = true -> get_field request "id" = Some id ->
  apply_cont (KReply origin request) VNull v h
  = Ret (h, [Post (Reply id VUndefined v) (target origin)]).
Proof.
  intros Ht Hid. cbn [apply_cont truthy]. unfold _postMessage. now rewrite Hid.
Qed.

(** C6.  A [get] request that reaches its handler with an array of keys
    launches one [getItem] call per key, in the order of the keys.  When all
    of them succeed, in any order, exactly one reply is posted, without an
    error: for a single key its result is the value read, or null when that
    value is falsy; for more keys it is the array of the values read, in the
    order of the keys, null entries included. *)
Theorem get_reply_shape (permissions : list Entry.t) (origin : string)
  (request params : value) (keys vs : list value) (events : list completion) (h : heap) :
  listener_route permissions origin request = Dispatched "get" ->
  get_field request "params" = Some params ->
  get_field params "keys" = Some (VArr keys) ->
  keys <> [] ->
  List.length vs = List.length keys ->
  events.*1 ≡ₚ seq 0 (List.length keys) ->
  Forall (fun c => truthy c.2.1 = false /\ vs !! c.1 = Some c.2.2) events ->
  exists h1 effs id h2,
    listener_request permissions origin request h = Ret (h1, effs) /\
    calls effs = map (fun key => (A_getItem, [key])) keys /\
    posts effs = [] /\
    get_field request "id" = Some id /\
    run {| w_heap := h1; w_log := effs |} events
    = Ret {| w_heap := h2;
             w_log := effs ++ [Post (Reply id VUndefined (get_result vs)) (target origin)] |}.
Proof.
  intros Hr Hp Hk Hne Hlen Hperm Hok.
  destruct (route_taken permissions origin request "get") as (_ & Ht & _); [now right|].
  set (K := KReply origin request).
  set (n := List.length keys) in *.
  set (cell := List.length h).
  set (effs := launch (VArr keys) A_getItem (KGet K) cell 0 n).
  destruct (postMessage_truthy origin request VUndefined (get_result vs) Ht)
    as (id & Hid & Hpost).
  assert (Hrun : listener_request permissions origin request h
                 = Ret (h ++ [all_init n], effs)).
  { unfold listener_request. rewrite Hr, Hp.
    destruct (dispatch_handler params (KReply origin request) h) as (-> & _).
    unfold _get. rewrite Hk. apply all_array. }
  assert (Hn : List.length events = n).
  { apply Permutation_length in Hperm as Hl.
    now rewrite length_fmap, length_seq in Hl. }
  assert (Hev : events <> []).
  { intros ->. destruct keys; [congruence|discriminate Hn]. }
  destruct (exists_last Hev) as (init & [i [err v]] & Hsplit).
  assert (Hlog : forall j, (j < n)%nat ->
            exists method args, effs !! j = Some (Call method args (KItem cell j (KGet K)))).
  { intros j Hj. eexists _, _. unfold effs. now rewrite launch_lookup. }
  assert (Hall : Forall (fun c => truthy c.2.1 = false /\ (c.1 < n)%nat) events).
  { eapply Forall_impl; [exact Hok|]. intros c [He Hv]. split; [exact He|].
    rewrite <- Hlen. eapply lookup_lt_Some, Hv. }
  assert (Hsucc : forallb succeeded events = true).
  { apply forallb_forall. intros c Hc. rewrite Forall_forall in Hall.
    apply list_elem_of_In in Hc. destruct (Hall c Hc) as [He _].
    unfold succeeded. now rewrite He. }
  assert (Hfinal : store_all (replicate n VUndefined) events = vs).
  { apply store_all_complete.
    - now rewrite length_replicate.
    - eapply Forall_impl; [exact Hok|]. now intros c [_ H].
    - intros j Hj. left. apply list_elem_of_In. rewrite Hperm.
      apply elem_of_seq. lia. }
  rewrite Hsplit in Hn, Hall, Hsucc, Hfinal.
  rewrite length_app in Hn. simpl in Hn.
  apply Forall_app in Hall as [Hall Hlast].
  apply Forall_cons in Hlast as [[He Hi] _]. cbn [fst snd] in He, Hi.
  rewrite forallb_app in Hsucc. apply andb_true_iff in Hsucc as [Hsucc _].
  assert (Hcell : (h ++ [all_init n]) !! cell = Some (all_init n)).
  { unfold cell. rewrite lookup_app_r by lia. now rewrite Nat.sub_diag. }
  exists (h ++ [all_init n]), effs, id.
  eexists. split; [exact Hrun|]. split; [|split; [|split; [exact Hid|]]].
  - unfold effs. rewrite launch_calls_list.
    transitivity (map (fun key => (A_getItem, [key]))
                    (map (fun j => get_index (VArr keys) j) (seq 0 n))).
    { now rewrite map_map. }
    unfold n. now rewrite indexed_items.
  - unfold effs. apply launch_posts.
  - rewrite Hsplit, run_app.
    rewrite (run_items effs cell n (KGet K) init (h ++ [all_init n]) (all_init n));
      [|exact Hlog|exact Hcell|exact Hall|unfold all_init; cbn [pending]; lia].
    rewrite (all_run_pending init (all_init n))
      by (unfold all_init; cbn [pending]; (assumption || lia)).
    cbn [fst run]. unfold complete. cbn [fst snd w_log w_heap].
    destruct (Hlog i Hi) as (method & args & ->).
    rewrite (item_last cell i (KGet K) _ _ err v He
               (list_lookup_insert_eq _ _ _ (lookup_lt_Some _ _ _ Hcell)))
      by (unfold all_init; cbn [pending]; lia).
    cbn [results]. change (results (all_init n)) with (replicate n VUndefined).
    rewrite (store_all_snoc (replicate n VUndefined) init i err v), Hfinal.
    rewrite get_done by (intros ->; destruct keys; [congruence|discriminate Hlen]).
    unfold K. rewrite (reply_done origin request _ _ id) by assumption.
    reflexivity.
Qed.

End HubRuns.

Lemma get_reply_shape_witness :
  exists h1 effs h2,
    listener_request anyone "http://site"
      (request_of 9 "get" (keys_params [VStr "a"; VStr "b"])) [] = Ret (h1, effs) /\
    run {| w_heap := h1; w_log := effs |}
      [(1%nat, (VNull, VNull)); (0%nat, (VNull, VNull))]
    = Ret {| w_heap := h2;
             w_log := effs ++ [Post (Reply (VNum 9) VUndefined (VArr [VNull; VNull]))
                                 "http://site"] |}.
Proof.
  destruct (get_reply_shape anyone "http://site"
              (request_of 9 "get" (keys_params [VStr "a"; VStr "b"]))
              (keys_params [VStr "a"; VStr "b"]) [VStr "a"; VStr "b"] [VNull; VNull]
              [(1%nat, (VNull, VNull)); (0%nat, (VNull, VNull))] [])
    as (h1 & effs & id & h2 & Hrun & _ & _ & Hid & Hdone).
  - reflexivity.
  - reflexivity.
  - reflexivity.
  - discriminate.
  - reflexivity.
  - simpl. apply perm_swap.
  - repeat constructor.
  - injection Hid as <-. exists h1, effs, h2. split; [exact Hrun|exact Hdone].
Defined.

(** ** Where the aggregator departs from its contract *)

Section AggregatorDefects.

(** C2.  [get] over two keys whose reads both fail: the callback of [_all]
    is invoked once per failure, so the consumer's callback runs twice and
    two replies are posted for the one request. *)
Theorem all_double_failure :
  (all_run (all_init 2)
     [(0%nat, (failure "quota", VUndefined)); (1%nat, (failure "denied", VUndefined))]).2
  = [(failure "quota", VUndefined); (failure "denied", VUndefined)]
  /\ exists h1 effs w,
       listener_request anyone "http://site"
         (request_of 2 "get" (keys_params [VStr "a"; VStr "b"])) [] = Ret (h1, effs) /\
       run {| w_heap := h1; w_log := effs |}
         [(0%nat, (failure "quota", VUndefined)); (1%nat, (failure "denied", VUndefined))]
       = Ret w /\
       posts (w_log w)
       = [(Reply (VNum 2) (VStr "quota") VUndefined, "http://site");
          (Reply (VNum 2) (VStr "denied") VUndefined, "http://site")].
Proof.
  split; [reflexivity|].
  eexists _, _, _. split; [reflexivity|]. split; reflexivity.
Qed.

(** C3.  [_all] over an empty array allocates its variables and launches
    nothing: no adapter call carries its callback, so no completion can
    ever invoke it.  A [getKeys] request against an empty store, which ends in
    such a call, is left without a reply. *)
Theorem all_empty_silent (method : adapter_method) (callback : cont) (h : heap)
  (events : list completion) (fuel : nat) :
  _all (VArr []) method callback h = Ret (h ++ [all_init 0], [])
  /\ run {| w_heap := h ++ [all_init 0]; w_log := [] |} events
     = Ret {| w_heap := h ++ [all_init 0]; w_log := [] |}
  /\ (all_run (all_init 0) []).2 = []
  /\ Mem.serve (S fuel) anyone "http://site" (request_of 1 "getKeys" VNull) ∅ []
     = Some (Ret (∅, [all_init 0], [])).
Proof.
  split; [reflexivity|split; [|split; [reflexivity|]]].
  - induction events as [|c events IH]; [reflexivity|].
    cbn [run]. unfold complete. cbn [w_log]. rewrite lookup_nil. exact IH.
  - destruct fuel; reflexivity.
Qed.

End AggregatorDefects.

(** ** Round trip through a storing adapter *)

Section RoundTrip.

Lemma serve_set (permissions : list Entry.t) (origin key : string) (v : value) (id : Z)
  (store : gmap string value) (h : heap) (fuel : nat) :
  _permitted permissions origin "set" = true ->
  Mem.serve (S (S fuel)) permissions origin
    (request_of id "set" (set_params (VStr key) v)) store h
  = Some (Ret (<[key := v]> store, h, [(Reply (VNum id) VUndefined VUndefined, target origin)])).
Proof.
  intros Hp. unfold Mem.serve, listener_request.
  rewrite (route_exact permissions origin _ "set");
    [|reflexivity|reflexivity|discriminate|].
  - rewrite Hp. destruct fuel; reflexivity.
  - apply short_no_marker. simpl. lia.
Qed.

Lemma serve_get (permissions : list Entry.t) (origin key : string) (v : value) (id : Z)
  (store : gmap string value) (h : heap) (fuel : nat) :
  _permitted permissions origin "get" = true ->
  store !! key = Some v ->
  Mem.serve (S (S fuel)) permissions origin
    (request_of id "get" (keys_params [VStr key])) store h
  = Some (Ret (store, <[List.length h := {| results := [v]; pending := 0 |}]> (h ++ [all_init 1]),
               [(Reply (VNum id) VUndefined (if truthy v then v else VNull), target origin)])).
Proof.
  intros Hp Hv. unfold Mem.serve, listener_request.
  rewrite (route_exact permissions origin _ "get");
    [|reflexivity|reflexivity|discriminate|apply get_name_no_marker].
  rewrite Hp.
  change (get_field (request_of id "get" (keys_params [VStr key])) "params")
    with (Some (keys_params [VStr key])).
  destruct (dispatch_handler (keys_params [VStr key])
              (KReply origin (request_of id "get" (keys_params [VStr key]))) h) as (-> & _).
  unfold _get.
  change (get_field (keys_params [VStr key]) "keys") with (Some (VArr [VStr key])).
  cbv iota. rewrite all_array. cbn [List.length launch Mem.drive Mem.exec Mem.arg].
  change (Mem.to_string (Mem.arg [get_index (VArr [VStr key]) 0] 0)) with key.
  rewrite Hv. cbn [default].
  rewrite (item_last (List.length h) 0 _ _ (all_init 1));
    [|reflexivity|rewrite lookup_app_r by lia; now rewrite Nat.sub_diag|reflexivity].
  rewrite get_done by discriminate.
  rewrite (reply_done origin _ _ _ (VNum id)) by reflexivity.
  cbn [results all_init replicate array_set]. simpl.
  destruct fuel; reflexivity.
Qed.

(** C8, as the code has it.  Against an adapter that stores what is
    written: a permitted [set] of [v] under [key] is answered without an
    error and leaves [v] under [key]; as long as [key] still holds [v], a
    permitted [get] of that one key is answered without an error, with
    [v] as the result when [v] is truthy and null when it is falsy. *)
Theorem set_get_round_trip (permissions : list Entry.t) (origin key : string) (v : value)
  (id1 id2 : Z) (store : gmap string value) (h : heap) (fuel : nat) :
  _permitted permissions origin "set" = true ->
  _permitted permissions origin "get" = true ->
  exists store1,
    Mem.serve (S (S fuel)) permissions origin
      (request_of id1 "set" (set_params (VStr key) v)) store h
    = Some (Ret (store1, h, [(Reply (VNum id1) VUndefined VUndefined, target origin)])) /\
    store1 !! key = Some v /\
    forall (store2 : gmap string value) (h2 : heap),
      store2 !! key = Some v ->
      exists h3,
        Mem.serve (S (S fuel)) permissions origin
          (request_of id2 "get" (keys_params [VStr key])) store2 h2
        = Some (Ret (store2, h3,
                     [(Reply (VNum id2) VUndefined (if truthy v then v else VNull),
                       target origin)])).
Proof.
  intros Hset Hget. exists (<[key := v]> store).
  split; [now apply serve_set|split; [apply lookup_insert_eq|]].
  intros store2 h2 Hv. eexists. now apply serve_get.
Qed.

Lemma set_get_round_trip_witness :
  exists store1 h3,
    Mem.serve 2 anyone "http://site" (request_of 1 "set" (set_params (VStr "a") (VStr "v"))) ∅ []
    = Some (Ret (store1, [], [(Reply (VNum 1) VUndefined VUndefined, "http://site")])) /\
    Mem.serve 2 anyone "http://site" (request_of 2 "get" (keys_params [VStr "a"])) store1 []
    = Some (Ret (store1, h3, [(Reply (VNum 2) VUndefined (VStr "v"), "http://site")])).
Proof.
  destruct (set_get_round_trip anyone "http://site" "a" (VStr "v") 1 2 ∅ [] 0)
    as (store1 & Hset & Hv & Hget); [reflexivity|reflexivity|].
  destruct (Hget store1 [] Hv) as (h3 & Hrun).
  exists store1, h3. split; [exact Hset|exact Hrun].
Defined.

(** C8 as stated fails for a falsy value: the empty string is stored, and
    read back as null. *)
Lemma round_trip_counterexample :
  ~ (forall (key : string) (v : value),
       exists store1 h1 out h2,
         Mem.serve 2 anyone "http://site" (request_of 1 "set" (set_params (VStr key) v)) ∅ []
         = Some (Ret (store1, h1, out)) /\
         Mem.serve 2 anyone "http://site" (request_of 2 "get" (keys_params [VStr key])) store1 h1
         = Some (Ret (store1, h2, [(Reply (VNum 2) VUndefined v, "http://site")]))).
Proof.
  intros H. destruct (H "a" (VStr "")) as (store1 & h1 & out & h2 & Hset & Hget).
  rewrite (serve_set anyone "http://site" "a" (VStr "") 1 ∅ [] 0) in Hset by reflexivity.
  injection Hset as <- <- _.
  rewrite (serve_get anyone "http://site" "a" (VStr "") 2 _ [] 0) in Hget;
    [|reflexivity|apply lookup_insert_eq].
  discriminate Hget.
Qed.

End RoundTrip.

(** ** What callbacks emit *)

Section CallbackEffects.

Lemma launch_forall (P : effect -> Prop) params method callback cell (count : nat) :
  (forall i, P (Call method [get_index params i] (KItem cell i callback))) ->
  forall i, Forall P (launch params method callback cell i count).
Proof.
  intros HP. induction count as [|count IH]; intros i; simpl; constructor; [apply HP|apply IH].
Qed.

Lemma all_effects (params : value) (method : adapter_method) (callback : cont)
  (h h' : heap) (effs : list effect) :
  _all params method callback h = Ret (h', effs) ->
  (exists st, h' = h ++ [st]) /\
  effs = launch params method callback (List.length h) 0 (List.length effs).
Proof.
  unfold _all. destruct (get_field params "length") as [len|]; [|discriminate].
  destruct (results_Array params len) as [r|]; [|discriminate].
  intros H. injection H as <- <-. split; [eauto|].
  f_equal. generalize 0%nat. induction (loop_bound len) as [|n IH]; intros i; [reflexivity|].
  simpl. now rewrite <- IH.
Qed.

Lemma root_pair (k : cont) : root k = ((root k).1, (root k).2).
Proof. now destruct (root k). Qed.

Lemma callback_effects_aux (k : cont) : forall (err v : value) (h h' : heap) (effs : list effect),
  apply_cont k err v h = Ret (h', effs) ->
  Forall (call_for (root k).1 (root k).2) effs \/ reply_for (root k).1 (root k).2 effs.
Proof.
  induction k as [o r|k IH|k IH|k IH|cell i k IH]; intros err v h h' effs H;
    cbn [apply_cont root] in H |- *.
  - unfold _postMessage in H. cbn [fst snd]. right.
    destruct (truthy err).
    + destruct (get_field err "message") as [m|]; [|discriminate H].
      destruct (get_field r "id") as [id|] eqn:Hid; [|discriminate H].
      injection H as <- <-. exists id, m, VUndefined. auto.
    + destruct (get_field r "id") as [id|] eqn:Hid; [|discriminate H].
      injection H as <- <-. exists id, VUndefined, v. auto.
  - destruct (truthy err); [now apply IH in H|].
    destruct (get_field v "length") as [len|]; [|discriminate H].
    destruct (negb _); now apply IH in H.
  - destruct (truthy err); now apply IH in H.
  - destruct (truthy err); [now apply IH in H|].
    destruct (new_Array v) as [ind|]; [|discriminate H].
    apply all_effects in H as [_ ->]. left.
    apply launch_call_for. apply root_pair.
  - destruct (truthy err); [now apply IH in H|].
    destruct (h !! cell) as [st|]; [|injection H as <- <-; left; constructor].
    unfold all_success in H.
    destruct (pending st - 1 =? 0); [now apply IH in H|].
    injection H as <- <-. left. constructor.
Qed.

Lemma dispatch_call_for (method : string) (params : value) (origin : string)
  (request : value) (h h' : heap) (effs : list effect) :
  recognized method ->
  dispatch method params (KReply origin request) h = Ret (h', effs) ->
  Forall (handed_for origin request) effs /\ Forall (call_for origin request) effs /\
  (exists ext, h' = h ++ ext) /\ Forall (confined [] (List.length h)) effs.
Proof.
  unfold recognized. simpl.
  destruct (dispatch_handler params (KReply origin request) h) as (Hg & Hs & Hd & Hc & Hk).
  intros [<-|[<-|[<-|[<-|[<-|[]]]]]];
    rewrite ?Hg, ?Hs, ?Hd, ?Hc, ?Hk; clear Hg Hs Hd Hc Hk.
  - unfold _get. destruct (get_field params "keys") as [keys|]; [|discriminate].
    intros H. apply all_effects in H as [[st ->] ->].
    repeat split; [| |eauto|]; apply launch_forall; intros i; simpl; auto.
    intros c0 [Hc|[]]. right. lia.
  - unfold _set. destruct (get_field params "key"), (get_field params "value");
      try discriminate.
    intros H. injection H as <- <-.
    repeat split; [| |exists []; now rewrite app_nil_r|]; repeat constructor.
    exact H.
  - unfold _del. destruct (get_field params "keys") as [keys|]; [|discriminate].
    intros H. apply all_effects in H as [[st ->] ->].
    repeat split; [| |eauto|]; apply launch_forall; intros i; simpl; auto.
    intros c0 [Hc|[]]. right. lia.
  - intros H. injection H as <- <-.
    repeat split; [| |exists []; now rewrite app_nil_r|]; repeat constructor.
    exact H.
  - intros H. injection H as <- <-.
    repeat split; [| |exists []; now rewrite app_nil_r|]; repeat constructor.
    exact H.
Qed.

Lemma dispatched_recognized (permissions : list Entry.t) (origin : string) (request : value)
  (method : string) :
  listener_route permissions origin request = Dispatched method -> recognized method.
Proof.
  intros Hr. apply available_recognized. apply dispatched_permitted in Hr.
  unfold _permitted in Hr.
  destruct (_inArray method available); [reflexivity|discriminate Hr].
Qed.

(** X1.  Whatever the listener emits for a parsed request, and whatever a
    callback emits when the adapter invokes it, is either a list of adapter
    calls whose callbacks lead back to the same request, or exactly one reply:
    the reply carries the id of that request, is sent to the origin of that
    request (to [*] for [file://]), and has its error or its result absent. *)
Theorem effects_for_request :
  (forall (permissions : list Entry.t) (origin : string) (request : value)
          (h h' : heap) (effs : list effect),
     listener_request permissions origin request h = Ret (h', effs) ->
     Forall (call_for origin request) effs \/ reply_for origin request effs)
  /\ (forall (k : cont) (err v : value) (h h' : heap) (effs : list effect),
        apply_cont k err v h = Ret (h', effs) ->
        Forall (call_for (root k).1 (root k).2) effs \/
        reply_for (root k).1 (root k).2 effs).
Proof.
  split; [|exact callback_effects_aux].
  intros permissions origin request h h' effs. unfold listener_request.
  destruct (listener_route permissions origin request) as [|name|name] eqn:Hr.
  - intros H. injection H as <- <-. left. constructor.
  - unfold _postMessage. destruct (get_field request "id") as [id|] eqn:Hid; [|discriminate].
    intros H. injection H as <- <-. right. eexists _, _, _. eauto.
  - destruct (get_field request "params") as [params|]; [|discriminate].
    intros H. left.
    now destruct (dispatch_call_for _ _ _ _ _ _ _ (dispatched_recognized _ _ _ _ Hr) H)
      as (_ & Hc & _).
Qed.

Lemma effects_for_request_witness :
  reply_for "file://" (request_of 8 "del" (keys_params [VStr "a"]))
    [Post (Reply (VNum 8) VUndefined VUndefined) "*"].
Proof.
  destruct effects_for_request as [_ Hcb].
  destruct (Hcb (KItem 0 0 (KDel (KReply "file://" (request_of 8 "del" (keys_params [VStr "a"])))))
              VNull VUndefined [all_init 1]
              [{| results := [VUndefined]; pending := 0 |}]
              [Post (Reply (VNum 8) VUndefined VUndefined) "*"] eq_refl) as [Hcalls|Hreply].
  - inversion Hcalls as [|e l He _]. destruct He.
  - exact Hreply.
Defined.

(** The callbacks unfolded one step. *)
Lemma length_step (callback : cont) (err v : value) (h : heap) :
  apply_cont (KLength callback) err v h
  = if truthy err then apply_cont callback err VUndefined h
    else match new_Array v with
         | None => Throw
         | Some indices =>
             _all (VArr (map (fun i => VNum (Z.of_nat i)) (seq 0 (List.length indices))))
               A_key callback h
         end.
Proof. reflexivity. Qed.

Lemma get_step (callback : cont) (err v : value) (h : heap) :
  apply_cont (KGet callback) err v h
  = if truthy err then apply_cont callback err VUndefined h
    else match get_field v "length" with
         | None => Throw
         | Some len =>
             if negb (truthy match len with
                             | VNum n => if 1 <? n then v else get_index v 0
                             | _ => get_index v 0
                             end)
             then apply_cont callback VNull VNull h
             else apply_cont callback VNull
                    match len with
                    | VNum n => if 1 <? n then v else get_index v 0
                    | _ => get_index v 0
                    end h
         end.
Proof. reflexivity. Qed.

Lemma del_step (callback : cont) (err v : value) (h : heap) :
  apply_cont (KDel callback) err v h
  = if truthy err then apply_cont callback err VUndefined h
    else apply_cont callback VNull VUndefined h.
Proof. reflexivity. Qed.

Lemma item_step (cell i : nat) (callback : cont) (err v : value) (h : heap) :
  apply_cont (KItem cell i callback) err v h
  = if truthy err then apply_cont callback err VUndefined h
    else match h !! cell with
         | None => Ret (h, [])
         | Some st =>
             match (all_success st i v).2 with
             | None => Ret (<[cell := (all_success st i v).1]> h, [])
             | Some (e, r) => apply_cont callback e r (<[cell := (all_success st i v).1]> h)
             end
         end.
Proof. reflexivity. Qed.




End CallbackEffects.

(** ** Requests do not share state *)

Section Isolation.

Lemma reply_shape (o : string) (r err v : value) (h h' : heap) (effs : list effect) :
  apply_cont (KReply o r) err v h = Ret (h', effs) ->
  h' = h /\ exists p t, effs = [Post p t].
Proof.
  cbn [apply_cont]. unfold _postMessage.
  destruct (truthy err).
  - destruct (get_field err "message"); [|discriminate].
    destruct (get_field r "id"); [|discriminate].
    intros H. injection H as <- <-. eauto.
  - destruct (get_field r "id"); [|discriminate].
    intros H. injection H as <- <-. eauto.
Qed.

Lemma cells_private_aux (k : cont) : forall (err v : value) (h h' : heap) (effs : list effect),
  apply_cont k err v h = Ret (h', effs) ->
  (List.length h <= List.length h')%nat /\
  (forall c, ~ In c (cells k) -> (c < List.length h)%nat -> h' !! c = h !! c) /\
  Forall (confined (cells k) (List.length h)) effs.
Proof.
  induction k as [o r|k IH|k IH|k IH|cell i k IH]; intros err v h h' effs H.
  - destruct (reply_shape o r err v h h' effs H) as (-> & p & t & ->).
    repeat split; [lia|repeat constructor].
  - rewrite get_step in H. cbn [cells].
    destruct (truthy err); [now apply IH in H|].
    destruct (get_field v "length") as [len|]; [|discriminate H].
    destruct (negb _); now apply IH in H.
  - rewrite del_step in H. cbn [cells]. destruct (truthy err); now apply IH in H.
  - rewrite length_step in H. cbn [cells].
    destruct (truthy err); [now apply IH in H|].
    destruct (new_Array v) as [ind|]; [|discriminate H].
    apply all_effects in H as [[st ->] ->].
    rewrite length_app. simpl. repeat split; [lia| |].
    + intros c _ Hc. now rewrite lookup_app_l.
    + apply launch_forall. intros j c [<-|Hc]; [right; lia|now left].
  - rewrite item_step in H. cbn [cells].
    destruct (truthy err).
    { apply IH in H as (Hl & Hk & Hf). repeat split; [exact Hl| |].
      - intros c Hc. apply Hk. intros Hin. apply Hc. now right.
      - eapply Forall_impl; [exact Hf|]. intros [] He; try exact He.
        intros c Hc. destruct (He c Hc); [left; now right|now right]. }
    destruct (h !! cell) as [st|] eqn:Hcell.
    2:{ injection H as <- <-. repeat split; [lia|constructor]. }
    destruct (all_success st i v).2 as [[e r]|].
    2:{ injection H as <- <-. rewrite length_insert. repeat split; [lia| |constructor].
        intros c Hc _. apply list_lookup_insert_ne. intros ->. apply Hc. now left. }
    apply IH in H as (Hl & Hk & Hf). rewrite length_insert in Hl, Hk, Hf.
    repeat split; [exact Hl| |].
    + intros c Hc Hlt. rewrite Hk; [|intros Hin; apply Hc; now right|exact Hlt].
      apply list_lookup_insert_ne. intros ->. apply Hc. now left.
    + eapply Forall_impl; [exact Hf|]. intros [] He; try exact He.
      intros c Hc. destruct (He c Hc); [left; now right|now right].
Qed.

(** X3.  A callback changes no cell but those of its own [_all] calls:
    the heap only grows, every cell the callback cannot reach reads as
    before, and the calls it emits reach only its own cells or cells allocated
    after it started.  The listener likewise only appends to the heap, and
    its calls reach only the cell it appended. *)
Theorem cells_private :
  (forall (permissions : list Entry.t) (origin : string) (request : value)
          (h h' : heap) (effs : list effect),
     listener_request permissions origin request h = Ret (h', effs) ->
     (exists ext, h' = h ++ ext) /\ Forall (confined [] (List.length h)) effs)
  /\ (forall (k : cont) (err v : value) (h h' : heap) (effs : list effect),
        apply_cont k err v h = Ret (h', effs) ->
        (List.length h <= List.length h')%nat /\
        (forall c, ~ In c (cells k) -> (c < List.length h)%nat -> h' !! c = h !! c) /\
        Forall (confined (cells k) (List.length h)) effs).
Proof.
  split; [|exact cells_private_aux].
  intros permissions origin request h h' effs. unfold listener_request.
  destruct (listener_route permissions origin request) as [|name|name] eqn:Hr.
  - intros H. injection H as <- <-. split; [exists []; now rewrite app_nil_r|constructor].
  - unfold _postMessage. destruct (get_field request "id"); [|discriminate].
    intros H. injection H as <- <-.
    split; [exists []; now rewrite app_nil_r|repeat constructor].
  - destruct (get_field request "params") as [params|]; [|discriminate].
    intros H.
    now destruct (dispatch_call_for _ _ _ _ _ _ _ (dispatched_recognized _ _ _ _ Hr) H)
      as (_ & _ & Hext & Hc).
Qed.

Lemma cells_private_witness :
  [all_init 2; {| results := [VUndefined]; pending := 0 |}] !! 0%nat
  = [all_init 2; all_init 1] !! 0%nat.
Proof.
  destruct cells_private as [_ Hcb].
  destruct (Hcb (KItem 1 0 (KDel (KReply "http://site" (request_of 8 "del" (keys_params [VStr "a"])))))
              VNull VUndefined [all_init 2; all_init 1]
              [all_init 2; {| results := [VUndefined]; pending := 0 |}]
              [Post (Reply (VNum 8) VUndefined VUndefined) "http://site"] eq_refl)
    as (_ & Hkeep & _).
  apply Hkeep.
  - simpl. intros [H|[]]. discriminate H.
  - simpl. lia.
Defined.

End Isolation.

(** ** The table, [init] and control messages *)

Section TableAndControl.

(** X4.  For tables none of whose RegExps carries the [g] or [y] flag, the
    answer of [_permitted] depends on which entries the table holds, not on
    their order or number: a table that holds every entry of another permits
    whatever the other permits, and two tables that are permutations of each
    other give the same answer. *)
Theorem permitted_order_free (p q : list Entry.t) (origin method : string) :
  flagless p -> flagless q ->
  ((forall e, In e p -> In e q) ->
   _permitted p origin method = true -> _permitted q origin method = true)
  /\ (p ≡ₚ q -> _permitted p origin method = _permitted q origin method).
Proof.
  intros Hp Hq.
  assert (Hmono : forall a b : list Entry.t, flagless a -> flagless b ->
            (forall e, In e a -> In e b) ->
            _permitted a origin method = true -> _permitted b origin method = true).
  { intros a b Ha Hb Hincl. rewrite !permitted_flagless by assumption.
    intros (Hrec & e & Hin & Hg). split; [exact Hrec|]. exists e. auto. }
  split; [now apply Hmono|].
  intros Hperm.
  destruct (_permitted p origin method) eqn:Ep, (_permitted q origin method) eqn:Eq;
    try reflexivity.
  - rewrite <- Eq. symmetry. apply (Hmono p q); [exact Hp|exact Hq| |exact Ep].
    intros e He. apply list_elem_of_In. rewrite <- Hperm. now apply list_elem_of_In.
  - rewrite <- Ep. apply (Hmono q p); [exact Hq|exact Hp| |exact Eq].
    intros e He. apply list_elem_of_In. rewrite Hperm. now apply list_elem_of_In.
Qed.

Lemma rev_flagless (p : list Entry.t) : flagless p -> flagless (rev p).
Proof. intros H e o x l Hin. apply H. now apply in_rev. Qed.

Lemma permitted_order_free_witness :
  _permitted (rev sample_table) "http://site" "set" = true.
Proof.
  destruct (permitted_order_free sample_table (rev sample_table) "http://site" "set"
              sample_table_flagless (rev_flagless _ sample_table_flagless))
    as [_ Hperm].
  rewrite <- Hperm; [reflexivity|].
  apply Permutation_rev.
Defined.

(** With one [g]-flagged RegExp object shared by two entries the order of
    the entries decides the answer. *)
Example permitted_order_matters :
  let shared := RegExpAt 0 site_g 0 in
  let first := {| Entry.origin := shared; Entry.allow := VArr [VStr "set"] |} in
  let second := {| Entry.origin := shared; Entry.allow := VArr [VStr "get"] |} in
  _permitted [first; second] "http://site" "get" = false
  /\ _permitted [second; first] "http://site" "get" = true.
Proof. split; reflexivity. Qed.

(** X5.  [init] installs the listener exactly when an adapter was passed
    or [localStorage] can be read and is there.  It then keeps the entries it
    was given (none for a missing or null list) and the adapter it was given
    (the one over [localStorage] otherwise) and announces [ready] to the
    parent; in the other case it only announces [unavailable]. *)
Theorem init_installs (permissions : permissions_arg) (StorageAdapter : bool)
  (localStorage : local_storage) :
  ((init permissions StorageAdapter localStorage).1 <> None
   <-> StorageAdapter = true \/ localStorage = LSPresent)
  /\ (forall hub,
        (init permissions StorageAdapter localStorage).1 = Some hub ->
        (init permissions StorageAdapter localStorage).2 = [Post Ready "*"] /\
        listening hub = true /\
        _permissions hub
        = match permissions with PEntries entries => entries | _ => [] end /\
        _storageAdapter hub
        = if StorageAdapter then GivenAdapter else LocalStorageAdapter)
  /\ ((init permissions StorageAdapter localStorage).1 = None ->
      (init permissions StorageAdapter localStorage).2 = [Post Unavailable "*"]).
Proof.
  unfold init.
  destruct StorageAdapter, localStorage, permissions; simpl;
    (split; [split; [intros H; try (now left); try (now right); try congruence
                    |intros [H|H]; congruence]
            |split; [intros hub H; try discriminate H; injection H as <-; auto
                    |intros H; try discriminate H; reflexivity]]).
Qed.

Lemma init_installs_witness :
  (init (PEntries sample_table) false LSDenied).2 = [Post Unavailable "*"].
Proof.
  destruct (init_installs (PEntries sample_table) false LSDenied) as (_ & _ & H).
  apply H. reflexivity.
Defined.

(** X6.  A poll is answered with exactly one [ready], sent to the origin
    the message came from, whatever the table holds and without parsing the
    payload; the hub's own [ready] and a payload that does not parse are
    dropped.  No other message makes the listener post [ready], and no
    message makes it post [unavailable]. *)
Theorem ready_only_for_poll (JSON_parse : string -> option value)
  (permissions : list Entry.t) (message : message) (h : heap) :
  (msg_data message = "cross-storage:poll" ->
   _listener JSON_parse permissions message h = Ret (h, [Post Ready (msg_origin message)]))
  /\ (msg_data message = "cross-storage:ready" \/
      (msg_data message <> "cross-storage:poll" /\ JSON_parse (msg_data message) = None) ->
      _listener JSON_parse permissions message h = Ret (h, []))
  /\ (forall h' effs data target,
        _listener JSON_parse permissions message h = Ret (h', effs) ->
        In (Post data target) effs ->
        data <> Unavailable /\
        (data = Ready -> msg_data message = "cross-storage:poll" /\
                         target = msg_origin message)).
Proof.
  unfold _listener. split; [|split].
  - intros ->. reflexivity.
  - intros [->|[Hpoll Hparse]]; [reflexivity|].
    apply String.eqb_neq in Hpoll. rewrite Hpoll, Hparse.
    now destruct (String.eqb (msg_data message) "cross-storage:ready").
  - intros h' effs data target.
    destruct (String.eqb_spec (msg_data message) "cross-storage:poll") as [Hpoll|Hpoll].
    { intros H. injection H as <- <-. intros [H|[]]. injection H as <- <-.
      split; [discriminate|auto]. }
    destruct (String.eqb (msg_data message) "cross-storage:ready").
    { intros H. injection H as <- <-. intros []. }
    destruct (JSON_parse (msg_data message)) as [request|].
    2:{ intros H. injection H as <- <-. intros []. }
    unfold listener_request.
    destruct (listener_route permissions _ request) as [|name|name] eqn:Hr.
    + intros H. injection H as <- <-. intros [].
    + unfold _postMessage. destruct (get_field request "id"); [|discriminate].
      intros H. injection H as <- <-. intros [H|[]]. injection H as <- <-.
      split; discriminate.
    + destruct (get_field request "params") as [params|]; [|discriminate].
      intros H Hin. exfalso.
      pose proof (handler_calls _ _ _ _ _ _ (dispatched_recognized _ _ _ _ Hr) H) as Hall.
      exact (proj1 (List.Forall_forall _ _) Hall _ Hin).
Qed.

Lemma ready_only_for_poll_witness :
  _listener (fun _ => None) []
    {| msg_origin := "http://site"; msg_data := "cross-storage:poll" |} []
  = Ret ([], [Post Ready "http://site"]).
Proof.
  destruct (ready_only_for_poll (fun _ => None) []
              {| msg_origin := "http://site"; msg_data := "cross-storage:poll" |} [])
    as (Hpoll & _).
  apply Hpoll. reflexivity.
Defined.

(** X7.  A message whose origin the browser reports as [null] is handled
    as one from [file://]: the table is consulted for [file://], any reply
    the listener posts goes to [*], and the callbacks it hands to the adapter
    belong to [file://], so that their replies go to [*] too.  Only a poll is
    treated differently: its [ready] is sent to [null] as reported. *)
Theorem null_origin_as_file (JSON_parse : string -> option value)
  (permissions : list Entry.t) (data : string) (h : heap) :
  (data <> "cross-storage:poll" ->
   _listener JSON_parse permissions {| msg_origin := "null"; msg_data := data |} h
   = _listener JSON_parse permissions {| msg_origin := "file://"; msg_data := data |} h
   /\ forall h' effs,
        _listener JSON_parse permissions {| msg_origin := "null"; msg_data := data |} h
        = Ret (h', effs) ->
        Forall (fun e => match e with
                         | Post _ target => target = "*"
                         | Call _ _ k => (root k).1 = "file://" /\ target (root k).1 = "*"
                         | Enter _ _ => False
                         end) effs)
  /\ _listener JSON_parse permissions
       {| msg_origin := "null"; msg_data := "cross-storage:poll" |} h
     = Ret (h, [Post Ready "null"]).
Proof.
  split; [|reflexivity].
  intros Hpoll. unfold _listener. cbn [msg_origin msg_data].
  apply String.eqb_neq in Hpoll. rewrite Hpoll.
  change (String.eqb "null" "null") with true.
  change (String.eqb "file://" "null") with false. cbv iota.
  split; [reflexivity|].
  intros h' effs.
  destruct (String.eqb data "cross-storage:ready").
  { intros H. injection H as <- <-. constructor. }
  destruct (JSON_parse data) as [request|].
  2:{ intros H. injection H as <- <-. constructor. }
  unfold listener_request.
  destruct (listener_route permissions "file://" request) as [|name|name] eqn:Hr.
  - intros H. injection H as <- <-. constructor.
  - unfold _postMessage. destruct (get_field request "id"); [|discriminate].
    intros H. injection H as <- <-. repeat constructor.
  - destruct (get_field request "params") as [params|]; [|discriminate].
    intros H.
    destruct (dispatch_call_for _ _ _ _ _ _ _ (dispatched_recognized _ _ _ _ Hr) H)
      as (_ & Hc & _).
    eapply Forall_impl; [exact Hc|].
    intros [p t|m a k|p x] He; [destruct He| |destruct He].
    simpl in He. rewrite He. now split.
Qed.

Lemma null_origin_as_file_witness :
  _listener (fun _ => Some (request_of 3 "clear" VNull)) []
    {| msg_origin := "null"; msg_data := "{...}" |} []
  = Ret ([], [Post (Reply (VNum 3) (VStr "Invalid permissions for clear") VUndefined) "*"]).
Proof.
  destruct (null_origin_as_file (fun _ => Some (request_of 3 "clear" VNull)) [] "{...}" [])
    as (Hdata & _).
  destruct Hdata as [-> _]; [discriminate|reflexivity].
Defined.

End TableAndControl.

(** ** Batches through the hub *)

Section Batches.

Lemma shift_0 (events : list completion) : shift 0 events = events.
Proof.
  induction events as [|[i c] events IH]; [reflexivity|].
  unfold shift in *. cbn [map fst snd]. now rewrite IH.
Qed.

Lemma shift_app (base : nat) (a b : list completion) :
  shift base (a ++ b) = shift base a ++ shift base b.
Proof. unfold shift. apply map_app. Qed.

Lemma posts_app (a b : list effect) : posts (a ++ b) = posts a ++ posts b.
Proof.
  induction a as [|e a IH]; [reflexivity|].
  destruct e; simpl; now rewrite IH.
Qed.

Lemma calls_app (a b : list effect) : calls (a ++ b) = calls a ++ calls b.
Proof.
  induction a as [|e a IH]; [reflexivity|].
  destruct e; simpl; now rewrite IH.
Qed.

Lemma launch_length params method callback cell (count : nat) : forall i,
  List.length (launch params method callback cell i count) = count.
Proof. induction count as [|count IH]; intros i; simpl; [reflexivity|now rewrite IH]. Qed.

(** The calls of one [_all], found in a log after [log0]. *)
Lemma launch_in_log (log0 rest : list effect) params method callback cell (n i : nat) :
  (i < n)%nat ->
  (log0 ++ launch params method callback cell 0 n ++ rest) !! (List.length log0 + i)%nat
  = Some (Call method [get_index params i] (KItem cell i callback)).
Proof.
  intros Hi. rewrite lookup_app_r by lia.
  replace (List.length log0 + i - List.length log0)%nat with i by lia.
  rewrite lookup_app_l by (rewrite launch_length; lia).
  now rewrite launch_lookup.
Qed.

(** As [run_items], for calls that start at position [base] of the log. *)
Lemma run_items_at (log : list effect) (base cell n : nat) (callback : cont)
  (events : list completion) : forall (h : heap) (st : all_state),
  (forall i, (i < n)%nat ->
     exists method args,
       log !! (base + i)%nat = Some (Call method args (KItem cell i callback))) ->
  h !! cell = Some st ->
  Forall (fun c => truthy c.2.1 = false /\ (c.1 < n)%nat) events ->
  Z.of_nat (List.length events) < pending st ->
  run {| w_heap := h; w_log := log |} (shift base events)
  = Ret {| w_heap := <[cell := (all_run st events).1]> h; w_log := log |}.
Proof.
  induction events as [|c events IH]; intros h st Hlog Hcell Hok Hlt.
  - cbn [shift map run all_run fst]. now rewrite list_insert_id.
  - apply Forall_cons in Hok as [[He Hi] Hok].
    destruct (Hlog _ Hi) as (method & args & Hl).
    simpl List.length in Hlt.
    unfold shift. cbn [map run]. fold (shift base events).
    unfold complete. cbn [w_log w_heap fst snd]. rewrite Hl, item_step, He, Hcell.
    rewrite all_run_cons. cbn [fst]. unfold all_step. rewrite He.
    unfold all_success. cbn [fst snd].
    destruct (Z.eqb_spec (pending st - 1) 0) as [E|E]; [lia|].
    rewrite app_nil_r.
    set (st' := {| results := array_set (results st) c.1 c.2.2; pending := pending st - 1 |}).
    rewrite (IH (<[cell := st']> h) st').
    + now rewrite list_insert_insert_eq.
    + exact Hlog.
    + apply list_lookup_insert_eq. eapply lookup_lt_Some, Hcell.
    + exact Hok.
    + unfold st'. cbn [pending]. lia.
Qed.

Lemma permutation_bounds (events : list completion) (n : nat) :
  events.*1 ≡ₚ seq 0 n ->
  List.length events = n /\ Forall (fun c => (c.1 < n)%nat) events.
Proof.
  intros Hperm. split.
  - apply Permutation_length in Hperm. now rewrite length_fmap, length_seq in Hperm.
  - apply Forall_forall. intros c Hc.
    assert (Hin : c.1 ∈ events.*1) by (apply list_elem_of_fmap; eauto).
    rewrite Hperm in Hin. apply elem_of_seq in Hin. lia.
Qed.

(** When all calls of one [_all] succeed, each once and in any order, the
    consumer's callback is run once, by the last completion, on the array
    the successes filled. *)
Lemma fan_in (items : list value) (method : adapter_method) (callback : cont)
  (h : heap) (log0 : list effect) (events : list completion) :
  items <> [] ->
  events.*1 ≡ₚ seq 0 (List.length items) ->
  Forall (fun c => truthy c.2.1 = false) events ->
  run {| w_heap := h ++ [all_init (List.length items)];
         w_log := log0 ++ launch (VArr items) method callback (List.length h) 0
                            (List.length items) |}
    (shift (List.length log0) events)
  = match apply_cont callback VNull
            (VArr (store_all (replicate (List.length items) VUndefined) events))
            (<[List.length h :=
                 {| results := store_all (replicate (List.length items) VUndefined) events;
                    pending := 0 |}]> (h ++ [all_init (List.length items)])) with
    | Throw => Throw
    | Ret (h', effs) =>
        Ret {| w_heap := h';
               w_log := (log0 ++ launch (VArr items) method callback (List.length h) 0
                                   (List.length items)) ++ effs |}
    end.
Proof.
  intros Hne Hperm Hok.
  set (n := List.length items) in *. set (cell := List.length h).
  set (log := log0 ++ launch (VArr items) method callback cell 0 n).
  destruct (permutation_bounds events n Hperm) as [Hn Hbound].
  assert (Hev : events <> []).
  { intros ->. destruct items; [congruence|discriminate Hn]. }
  destruct (exists_last Hev) as (init & [i [err v]] & ->).
  assert (Hlog : forall j, (j < n)%nat ->
            exists m args, log !! (List.length log0 + j)%nat
                           = Some (Call m args (KItem cell j callback))).
  { intros j Hj. eexists _, _. unfold log.
    rewrite <- (app_nil_r (launch _ _ _ _ _ _)). now apply launch_in_log. }
  assert (Hcell : (h ++ [all_init n]) !! cell = Some (all_init n)).
  { unfold cell. rewrite lookup_app_r by lia. now rewrite Nat.sub_diag. }
  rewrite length_app in Hn. simpl in Hn.
  apply Forall_app in Hok as [Hok Hlast]. apply Forall_cons in Hlast as [He _].
  apply Forall_app in Hbound as [Hbound Hi]. apply Forall_cons in Hi as [Hi _].
  cbn [fst snd] in He, Hi.
  assert (Hall : Forall (fun c => truthy c.2.1 = false /\ (c.1 < n)%nat) init).
  { apply Forall_forall. intros c Hc. rewrite Forall_forall in Hok, Hbound. auto. }
  assert (Hsucc : forallb succeeded init = true).
  { apply forallb_forall. intros c Hc. rewrite Forall_forall in Hok.
    apply list_elem_of_In in Hc. unfold succeeded. now rewrite (Hok c Hc). }
  rewrite shift_app, run_app.
  rewrite (run_items_at log (List.length log0) cell n callback init _ (all_init n));
    [|exact Hlog|exact Hcell|exact Hall|unfold all_init; cbn [pending]; lia].
  rewrite (all_run_pending init (all_init n))
    by (unfold all_init; cbn [pending]; (assumption || lia)).
  unfold shift. cbn [map fst snd run]. unfold complete. cbn [fst snd w_log w_heap].
  destruct (Hlog i Hi) as (m & args & ->).
  rewrite (item_last cell i callback _ _ err v He
             (list_lookup_insert_eq _ _ _ (lookup_lt_Some _ _ _ Hcell)))
    by (unfold all_init; cbn [pending]; lia).
  cbn [results]. change (results (all_init n)) with (replicate n VUndefined).
  rewrite (store_all_snoc (replicate n VUndefined) init i err v).
  rewrite list_insert_insert_eq.
  now destruct (apply_cont callback VNull _ _) as [|[h' effs]].
Qed.

(** X8.  One failure in a batch.  When one call of an [_all] fails and
    all the others succeed, in whatever order the completions arrive, the
    request gets exactly one reply: it carries the message of that failure and
    no result.  This holds for [get], [del] and [getKeys] alike. *)
Theorem single_failure_reply (items : list value) (method : adapter_method)
  (callback : cont) (h h1 : heap) (effs log0 : list effect)
  (before after : list completion) (i : nat) (err v : value) :
  _all (VArr items) method callback h = Ret (h1, effs) ->
  truthy (root callback).2 = true ->
  truthy err = true ->
  (before ++ (i, (err, v)) :: after).*1 ≡ₚ seq 0 (List.length items) ->
  Forall (fun c => truthy c.2.1 = false) (before ++ after) ->
  exists id message h2,
    get_field (root callback).2 "id" = Some id /\
    get_field err "message" = Some message /\
    run {| w_heap := h1; w_log := log0 ++ effs |}
      (shift (List.length log0) (before ++ (i, (err, v)) :: after))
    = Ret {| w_heap := h2;
             w_log := (log0 ++ effs)
                      ++ [Post (Reply id message VUndefined) (target (root callback).1)] |}.
Proof.
  intros Hall Hroot Herr Hperm Hok.
  rewrite all_array in Hall. injection Hall as <- <-.
  set (n := List.length items) in *. set (cell := List.length h).
  set (log := log0 ++ launch (VArr items) method callback cell 0 n).
  destruct (permutation_bounds _ n Hperm) as [Hn Hbound].
  rewrite length_app in Hn. simpl in Hn.
  apply Forall_app in Hok as [Hb Ha].
  apply Forall_app in Hbound as [Hbb Hba]. apply Forall_cons in Hba as [Hi Hba].
  cbn [fst] in Hi.
  assert (Hlog : forall rest j, (j < n)%nat ->
            exists m args, (log ++ rest) !! (List.length log0 + j)%nat
                           = Some (Call m args (KItem cell j callback))).
  { intros rest j Hj. eexists _, _. unfold log. rewrite <- app_assoc.
    now apply launch_in_log. }
  assert (Hcell : (h ++ [all_init n]) !! cell = Some (all_init n)).
  { unfold cell. rewrite lookup_app_r by lia. now rewrite Nat.sub_diag. }
  assert (Hall1 : Forall (fun c => truthy c.2.1 = false /\ (c.1 < n)%nat) before).
  { apply Forall_forall. intros c Hc. rewrite Forall_forall in Hb, Hbb. auto. }
  assert (Hall2 : Forall (fun c => truthy c.2.1 = false /\ (c.1 < n)%nat) after).
  { apply Forall_forall. intros c Hc. rewrite Forall_forall in Ha, Hba. auto. }
  assert (Hsucc : forallb succeeded before = true).
  { apply forallb_forall. intros c Hc. rewrite Forall_forall in Hb.
    apply list_elem_of_In in Hc. unfold succeeded. now rewrite (Hb c Hc). }
  destruct (failure_reply callback (root callback).1 (root callback).2 err VUndefined
              (<[cell := (all_run (all_init n) before).1]> (h ++ [all_init n]))
              (root_pair callback) Hroot Herr) as (id & message & Hid & Hm & Hfail).
  exists id, message. eexists. split; [exact Hid|split; [exact Hm|]].
  rewrite shift_app, run_app.
  rewrite (run_items_at log (List.length log0) cell n callback before _ (all_init n));
    [|intros j Hj; specialize (Hlog [] j Hj); now rewrite app_nil_r in Hlog
     |exact Hcell|exact Hall1|unfold all_init; cbn [pending]; lia].
  unfold shift at 1. cbn [map fst snd run]. fold (shift (List.length log0) after).
  unfold complete. cbn [fst snd w_log w_heap].
  destruct (Hlog [] i Hi) as (m & args & Hl). rewrite app_nil_r in Hl. rewrite Hl.
  rewrite item_step, Herr, Hfail.
  rewrite (run_items_at (log ++ [Post (Reply id message VUndefined) (target (root callback).1)])
             (List.length log0) cell n callback after _ (all_run (all_init n) before).1);
    [reflexivity|intros j Hj; apply Hlog, Hj
    |apply list_lookup_insert_eq; eapply lookup_lt_Some, Hcell|exact Hall2|].
  rewrite (all_run_pending before (all_init n))
    by (unfold all_init; cbn [pending]; (assumption || lia)).
  unfold all_init. cbn [fst pending]. lia.
Qed.

Lemma single_failure_reply_witness :
  exists h2,
    run {| w_heap := [all_init 3];
           w_log := launch (VArr [VStr "a"; VStr "b"; VStr "c"]) A_getItem
                      (KGet (KReply "http://site" (request_of 5 "get" VNull))) 0 0 3 |}
      [(2%nat, (VNull, VStr "z")); (1%nat, (failure "quota", VUndefined));
       (0%nat, (VNull, VStr "x"))]
    = Ret {| w_heap := h2;
             w_log := launch (VArr [VStr "a"; VStr "b"; VStr "c"]) A_getItem
                        (KGet (KReply "http://site" (request_of 5 "get" VNull))) 0 0 3
                      ++ [Post (Reply (VNum 5) (VStr "quota") VUndefined) "http://site"] |}.
Proof.
  destruct (single_failure_reply [VStr "a"; VStr "b"; VStr "c"] A_getItem
              (KGet (KReply "http://site" (request_of 5 "get" VNull))) [] [all_init 3]
              (launch (VArr [VStr "a"; VStr "b"; VStr "c"]) A_getItem
                 (KGet (KReply "http://site" (request_of 5 "get" VNull))) 0 0 3) []
              [(2%nat, (VNull, VStr "z"))] [(0%nat, (VNull, VStr "x"))] 1
              (failure "quota") VUndefined)
    as (id & message & h2 & Hid & Hm & Hrun).
  - reflexivity.
  - reflexivity.
  - reflexivity.
  - simpl. change [2%nat; 1%nat; 0%nat] with (rev [0%nat; 1%nat; 2%nat]).
    symmetry. apply Permutation_rev.
  - repeat constructor.
  - injection Hid as <-. injection Hm as <-. exists h2. exact Hrun.
Defined.

(** C7.  [_all] over an array of [n] items launches one adapter call per
    item: the call at position [i] is the operation for item [i] and carries
    the callback of index [i].  When the adapter then completes every one of
    these calls successfully, each once and in any order, the call for item
    [i] with the value [vs !! i], the hub invokes the consumer's callback
    exactly once, by the last completion, with no error and the array [vs]:
    its length is [n] and its [i]-th element is the value the call launched
    for item [i] completed with.  For the callback of [_listener] this is one
    reply whose result is [vs].  Over no items nothing is launched and the
    callback is not invoked. *)
Theorem all_positional (items vs : list value) (events : list completion)
  (method : adapter_method) (callback : cont) (h : heap) :
  List.length vs = List.length items ->
  events.*1 ≡ₚ seq 0 (List.length items) ->
  Forall (fun c => truthy c.2.1 = false /\ vs !! c.1 = Some c.2.2) events ->
  exists h1 effs,
    _all (VArr items) method callback h = Ret (h1, effs) /\
    List.length effs = List.length items /\
    (forall i item, items !! i = Some item ->
       effs !! i = Some (Call method [item] (KItem (List.length h) i callback))) /\
    run {| w_heap := h1; w_log := effs |} events
    = match items with
      | [] => Ret {| w_heap := h1; w_log := effs |}
      | _ :: _ =>
          match apply_cont callback VNull (VArr vs)
                  (<[List.length h := {| results := vs; pending := 0 |}]> h1) with
          | Throw => Throw
          | Ret (h', out) => Ret {| w_heap := h'; w_log := effs ++ out |}
          end
      end /\
    (forall origin request id,
       items <> [] -> callback = KReply origin request ->
       truthy request = true -> get_field request "id" = Some id ->
       run {| w_heap := h1; w_log := effs |} events
       = Ret {| w_heap := <[List.length h := {| results := vs; pending := 0 |}]> h1;
                w_log := effs ++ [Post (Reply id VUndefined (VArr vs)) (target origin)] |}).
Proof.
  intros Hlen Hperm Hok.
  eexists _, _. split; [apply all_array|].
  split; [apply launch_length|split].
  { intros i item Hi. rewrite launch_lookup by (eapply lookup_lt_Some, Hi).
    cbn [Nat.add get_index]. now rewrite Hi. }
  destruct items as [|item0 items'].
  { apply Permutation_length in Hperm. rewrite length_fmap in Hperm.
    destruct events; [|discriminate Hperm].
    split; [reflexivity|]. intros origin request id Hne. congruence. }
  set (items := item0 :: items') in *.
  assert (Hne : items <> []) by discriminate.
  assert (Hfinal : store_all (replicate (List.length items) VUndefined) events = vs).
  { apply store_all_complete.
    - now rewrite length_replicate.
    - eapply Forall_impl; [exact Hok|]. now intros c [_ H].
    - intros j Hj. left. apply list_elem_of_In. rewrite Hperm.
      apply elem_of_seq. lia. }
  assert (Hsucc : Forall (fun c : completion => truthy c.2.1 = false) events).
  { eapply Forall_impl; [exact Hok|]. now intros c [H _]. }
  pose proof (fan_in items method callback h [] events Hne Hperm Hsucc) as Hfan.
  rewrite Hfinal in Hfan. cbn [List.length app] in Hfan. rewrite shift_0 in Hfan.
  split.
  - exact Hfan.
  - intros origin request id _ -> Ht Hid. rewrite Hfan.
    now rewrite (reply_done origin request _ _ id Ht Hid).
Qed.

Lemma all_positional_witness :
  run {| w_heap := [all_init 3];
         w_log := [Call A_getItem [VStr "k0"] (KItem 0 0 (KReply "http://site" (request_of 5 "get" VNull)));
                   Call A_getItem [VStr "k1"] (KItem 0 1 (KReply "http://site" (request_of 5 "get" VNull)));
                   Call A_getItem [VStr "k2"] (KItem 0 2 (KReply "http://site" (request_of 5 "get" VNull)))] |}
    [(2%nat, (VNull, VStr "c")); (0%nat, (VNull, VStr "a")); (1%nat, (VNull, VNull))]
  = Ret {| w_heap := [{| results := [VStr "a"; VNull; VStr "c"]; pending := 0 |}];
           w_log := [Call A_getItem [VStr "k0"] (KItem 0 0 (KReply "http://site" (request_of 5 "get" VNull)));
                     Call A_getItem [VStr "k1"] (KItem 0 1 (KReply "http://site" (request_of 5 "get" VNull)));
                     Call A_getItem [VStr "k2"] (KItem 0 2 (KReply "http://site" (request_of 5 "get" VNull)));
                     Post (Reply (VNum 5) VUndefined (VArr [VStr "a"; VNull; VStr "c"]))
                       "http://site"] |}.
Proof.
  destruct (all_positional [VStr "k0"; VStr "k1"; VStr "k2"] [VStr "a"; VNull; VStr "c"]
              [(2%nat, (VNull, VStr "c")); (0%nat, (VNull, VStr "a")); (1%nat, (VNull, VNull))]
              A_getItem (KReply "http://site" (request_of 5 "get" VNull)) [])
    as (h1 & effs & Hall & _ & _ & _ & Hreply).
  - reflexivity.
  - simpl. change [2%nat; 0%nat; 1%nat] with ([2%nat] ++ [0%nat; 1%nat]).
    now rewrite Permutation_app_comm.
  - repeat constructor.
  - injection Hall as <- <-.
    apply (Hreply "http://site" (request_of 5 "get" VNull) (VNum 5));
      [discriminate|reflexivity|reflexivity|reflexivity].
Defined.

End Batches.

(** ** [del] and [getKeys] *)

Section DelAndKeys.

Lemma request_fields (request : value) :
  truthy request = true ->
  exists id params, get_field request "id" = Some id /\ get_field request "params" = Some params.
Proof. intros Ht. destruct request; try discriminate Ht; simpl; eauto. Qed.

(** X9.  A [del] request that reaches its handler with a non-empty array
    of keys launches one [removeItem] call per key, in the order of the keys.
    When all of them succeed, in any order and whatever values they pass, one
    reply is posted, with neither an error nor a result. *)
Theorem del_reply (permissions : list Entry.t) (origin : string)
  (request params : value) (keys : list value) (events : list completion) (h : heap) :
  listener_route permissions origin request = Dispatched "del" ->
  get_field request "params" = Some params ->
  get_field params "keys" = Some (VArr keys) ->
  keys <> [] ->
  events.*1 ≡ₚ seq 0 (List.length keys) ->
  Forall (fun c => truthy c.2.1 = false) events ->
  exists h1 effs id h2,
    listener_request permissions origin request h = Ret (h1, effs) /\
    calls effs = map (fun key => (A_removeItem, [key])) keys /\
    posts effs = [] /\
    get_field request "id" = Some id /\
    run {| w_heap := h1; w_log := effs |} events
    = Ret {| w_heap := h2;
             w_log := effs ++ [Post (Reply id VUndefined VUndefined) (target origin)] |}.
Proof.
  intros Hr Hp Hk Hne Hperm Hok.
  destruct (route_taken permissions origin request "del") as (_ & Ht & _); [now right|].
  destruct (request_fields request Ht) as (id & _ & Hid & _).
  set (K := KReply origin request). set (n := List.length keys).
  exists (h ++ [all_init n]), (launch (VArr keys) A_removeItem (KDel K) (List.length h) 0 n), id.
  eexists. split; [|split; [|split; [|split; [exact Hid|]]]].
  - unfold listener_request. rewrite Hr, Hp.
    destruct (dispatch_handler params (KReply origin request) h) as (_ & _ & -> & _).
    unfold _del. rewrite Hk. apply all_array.
  - rewrite launch_calls_list.
    transitivity (map (fun key => (A_removeItem, [key]))
                    (map (fun j => get_index (VArr keys) j) (seq 0 n))).
    { now rewrite map_map. }
    unfold n. now rewrite indexed_items.
  - apply launch_posts.
  - pose proof (fan_in keys A_removeItem (KDel K) h [] events Hne Hperm Hok) as Hfan.
    cbn [List.length app] in Hfan. rewrite shift_0 in Hfan. unfold n. rewrite Hfan.
    rewrite del_step. cbn [truthy]. unfold K.
    rewrite (reply_done origin request _ _ id) by assumption.
    reflexivity.
Qed.

Lemma del_reply_witness :
  exists h1 effs h2,
    listener_request anyone "http://site"
      (request_of 8 "del" (keys_params [VStr "a"; VStr "b"])) [] = Ret (h1, effs) /\
    run {| w_heap := h1; w_log := effs |}
      [(1%nat, (VNull, VUndefined)); (0%nat, (VNull, VUndefined))]
    = Ret {| w_heap := h2;
             w_log := effs ++ [Post (Reply (VNum 8) VUndefined VUndefined) "http://site"] |}.
Proof.
  destruct (del_reply anyone "http://site"
              (request_of 8 "del" (keys_params [VStr "a"; VStr "b"]))
              (keys_params [VStr "a"; VStr "b"]) [VStr "a"; VStr "b"]
              [(1%nat, (VNull, VUndefined)); (0%nat, (VNull, VUndefined))] [])
    as (h1 & effs & id & h2 & Hrun & _ & _ & Hid & Hdone).
  - reflexivity.
  - reflexivity.
  - reflexivity.
  - discriminate.
  - simpl. apply perm_swap.
  - repeat constructor.
  - injection Hid as <-. exists h1, effs, h2. split; [exact Hrun|exact Hdone].
Defined.

Lemma new_Array_indices (n : nat) :
  Z.of_nat n <= max_array_length ->
  new_Array (VNum (Z.of_nat n)) = Some (replicate n VUndefined).
Proof.
  intros Hmax. unfold new_Array.
  destruct (Z.ltb_spec (Z.of_nat n) 0) as [H|_]; [lia|].
  destruct (Z.ltb_spec max_array_length (Z.of_nat n)) as [H|_]; [lia|].
  cbn [orb]. now rewrite Nat2Z.id.
Qed.

(** X10.  A [getKeys] request first asks the adapter for the number of
    keys.  When that succeeds with a count [n] with [0 < n <= 4294967295]
    (the largest length [new Array] accepts), one [key] call is launched per
    index [0 .. n-1]; when these all succeed, in any order, one reply is
    posted whose result is the array of the names passed, in index order.
    The result is an array also for a single key. *)
Theorem getKeys_reply (permissions : list Entry.t) (origin : string) (request : value)
  (n : nat) (e0 : value) (names : list value) (events : list completion) (h : heap) :
  listener_route permissions origin request = Dispatched "getKeys" ->
  truthy e0 = false ->
  (0 < n)%nat ->
  Z.of_nat n <= max_array_length ->
  List.length names = n ->
  events.*1 ≡ₚ seq 0 n ->
  Forall (fun c => truthy c.2.1 = false /\ names !! c.1 = Some c.2.2) events ->
  exists effs id w,
    listener_request permissions origin request h = Ret (h, effs) /\
    calls effs = [(A_length, [])] /\
    get_field request "id" = Some id /\
    run {| w_heap := h; w_log := effs |}
      ((0%nat, (e0, VNum (Z.of_nat n))) :: shift 1 events) = Ret w /\
    calls (w_log w)
    = (A_length, []) :: map (fun i => (A_key, [VNum (Z.of_nat i)])) (seq 0 n) /\
    posts (w_log w) = [(Reply id VUndefined (VArr names), target origin)].
Proof.
  intros Hr He0 Hpos Hmax Hlen Hperm Hok.
  destruct (route_taken permissions origin request "getKeys") as (_ & Ht & _); [now right|].
  destruct (request_fields request Ht) as (id & params & Hid & Hp).
  set (K := KReply origin request).
  set (indices := map (fun i => VNum (Z.of_nat i)) (seq 0 n)).
  assert (Hil : List.length indices = n).
  { unfold indices. now rewrite length_map, length_seq. }
  assert (Hine : indices <> []).
  { intros E. rewrite E in Hil. simpl in Hil. lia. }
  assert (Hfinal : store_all (replicate n VUndefined) events = names).
  { apply store_all_complete.
    - now rewrite length_replicate.
    - eapply Forall_impl; [exact Hok|]. now intros c [_ H].
    - intros j Hj. left. apply list_elem_of_In. rewrite Hperm.
      apply elem_of_seq. lia. }
  assert (Hsucc : Forall (fun c : completion => truthy c.2.1 = false) events).
  { eapply Forall_impl; [exact Hok|]. now intros c [H _]. }
  pose proof (fan_in indices A_key K h [Call A_length [] (KLength K)] events Hine) as Hfan.
  rewrite Hil in Hfan. specialize (Hfan Hperm Hsucc).
  rewrite Hfinal in Hfan. unfold K in Hfan at 1.
  rewrite (reply_done origin request _ _ id) in Hfan by assumption.
  exists [Call A_length [] (KLength K)], id. eexists.
  split; [|split; [reflexivity|split; [exact Hid|split; [|split]]]].
  - unfold listener_request. rewrite Hr, Hp.
    now destruct (dispatch_handler params (KReply origin request) h) as (_ & _ & _ & _ & ->).
  - cbn [run]. unfold complete. cbn [w_log w_heap fst snd lookup list_lookup].
    rewrite length_step, He0, new_Array_indices, length_replicate by exact Hmax.
    fold indices. rewrite all_array, Hil.
    cbn [List.length] in Hfan. exact Hfan.
  - cbn [w_log]. rewrite !calls_app. cbn [calls app].
    rewrite launch_calls_list, app_nil_r. f_equal.
    transitivity (map (fun key => (A_key, [key]))
                    (map (fun j => get_index (VArr indices) j) (seq 0 n))).
    { now rewrite map_map. }
    rewrite <- Hil at 1. rewrite indexed_items. unfold indices. now rewrite map_map.
  - cbn [w_log]. rewrite !posts_app. cbn [posts app].
    now rewrite launch_posts.
Qed.

Lemma getKeys_reply_witness :
  exists w,
    run {| w_heap := [];
           w_log := [Call A_length []
                       (KLength (KReply "http://site" (request_of 6 "getKeys" VNull)))] |}
      [(0%nat, (VNull, VNum 1)); (1%nat, (VNull, VStr "only"))] = Ret w /\
    posts (w_log w) = [(Reply (VNum 6) VUndefined (VArr [VStr "only"]), "http://site")].
Proof.
  destruct (getKeys_reply anyone "http://site" (request_of 6 "getKeys" VNull) 1 VNull
              [VStr "only"] [(0%nat, (VNull, VStr "only"))] [])
    as (effs & id & w & Hrun & _ & Hid & Hdone & _ & Hposts).
  - reflexivity.
  - reflexivity.
  - lia.
  - unfold max_array_length. lia.
  - reflexivity.
  - reflexivity.
  - repeat constructor.
  - injection Hid as <-. injection Hrun as <-. exists w. split; [exact Hdone|exact Hposts].
Defined.

(** X11.  The count [_getKeys] receives.  A negative count makes its
    callback raise (no array of that length exists) and nothing is posted.  A
    count that is not a number is not used as a length: whatever it is, exactly
    one [key] call is launched, for index 0. *)
Theorem getKeys_count (origin : string) (request count : value) (h : heap) :
  (forall n, count = VNum n -> n < 0 ->
     apply_cont (KLength (KReply origin request)) VNull count h = Throw)
  /\ ((forall n, count <> VNum n) ->
      apply_cont (KLength (KReply origin request)) VNull count h
      = Ret (h ++ [all_init 1],
             [Call A_key [VNum 0] (KItem (List.length h) 0 (KReply origin request))])).
Proof.
  split.
  - intros n -> Hn. rewrite length_step. cbn [truthy new_Array].
    destruct (Z.ltb_spec n 0) as [_|H]; [reflexivity|lia].
  - intros Hnot. rewrite length_step. cbn [truthy].
    destruct count; try (now destruct (Hnot n)); reflexivity.
Qed.

Lemma getKeys_count_witness :
  apply_cont (KLength (KReply "http://site" (request_of 6 "getKeys" VNull)))
    VNull (VStr "3") []
  = Ret ([all_init 1],
         [Call A_key [VNum 0]
            (KItem 0 0 (KReply "http://site" (request_of 6 "getKeys" VNull)))])
  /\ apply_cont (KLength (KReply "http://site" (request_of 6 "getKeys" VNull)))
       VNull (VNum (-1)) [] = Throw.
Proof.
  destruct (getKeys_count "http://site" (request_of 6 "getKeys" VNull) (VStr "3") [])
    as [_ Hother].
  destruct (getKeys_count "http://site" (request_of 6 "getKeys" VNull) (VNum (-1)) [])
    as [Hneg _].
  split.
  - apply Hother. discriminate.
  - apply (Hneg (-1)); [reflexivity|lia].
Defined.

End DelAndKeys.

(** ** Removal through a storing adapter *)

Section Removal.

Lemma serve_del (permissions : list Entry.t) (origin key : string) (id : Z)
  (store : gmap string value) (h : heap) (fuel : nat) :
  _permitted permissions origin "del" = true ->
  Mem.serve (S (S fuel)) permissions origin
    (request_of id "del" (keys_params [VStr key])) store h
  = Some (Ret (delete key store,
               <[List.length h := {| results := [VUndefined]; pending := 0 |}]>
                 (h ++ [all_init 1]),
               [(Reply (VNum id) VUndefined VUndefined, target origin)])).
Proof.
  intros Hp. unfold Mem.serve, listener_request.
  rewrite (route_exact permissions origin _ "del");
    [|reflexivity|reflexivity|discriminate|apply short_no_marker; simpl; lia].
  rewrite Hp.
  change (get_field (request_of id "del" (keys_params [VStr key])) "params")
    with (Some (keys_params [VStr key])).
  destruct (dispatch_handler (keys_params [VStr key])
              (KReply origin (request_of id "del" (keys_params [VStr key]))) h)
    as (_ & _ & -> & _).
  unfold _del.
  change (get_field (keys_params [VStr key]) "keys") with (Some (VArr [VStr key])).
  cbv iota. rewrite all_array. cbn [List.length launch Mem.drive Mem.exec Mem.arg].
  change (Mem.to_string (Mem.arg [get_index (VArr [VStr key]) 0] 0)) with key.
  rewrite (item_last (List.length h) 0 _ _ (all_init 1));
    [|reflexivity|rewrite lookup_app_r by lia; now rewrite Nat.sub_diag|reflexivity].
  rewrite del_step. cbn [truthy].
  rewrite (reply_done origin _ _ _ (VNum id)) by reflexivity.
  cbn [results all_init replicate array_set]. simpl.
  destruct fuel; reflexivity.
Qed.

Lemma serve_clear (permissions : list Entry.t) (origin : string) (params : value) (id : Z)
  (store : gmap string value) (h : heap) (fuel : nat) :
  _permitted permissions origin "clear" = true ->
  Mem.serve (S (S fuel)) permissions origin (request_of id "clear" params) store h
  = Some (Ret (∅, h, [(Reply (VNum id) VUndefined VUndefined, target origin)])).
Proof.
  intros Hp. unfold Mem.serve, listener_request.
  rewrite (route_exact permissions origin _ "clear");
    [|reflexivity|reflexivity|discriminate|apply short_no_marker; simpl; lia].
  rewrite Hp. destruct fuel; reflexivity.
Qed.

Lemma serve_get_unset (permissions : list Entry.t) (origin key : string) (id : Z)
  (store : gmap string value) (h : heap) (fuel : nat) :
  _permitted permissions origin "get" = true ->
  store !! key = None ->
  Mem.serve (S (S fuel)) permissions origin
    (request_of id "get" (keys_params [VStr key])) store h
  = Some (Ret (store,
               <[List.length h := {| results := [VNull]; pending := 0 |}]> (h ++ [all_init 1]),
               [(Reply (VNum id) VUndefined VNull, target origin)])).
Proof.
  intros Hp Hv. unfold Mem.serve, listener_request.
  rewrite (route_exact permissions origin _ "get");
    [|reflexivity|reflexivity|discriminate|apply get_name_no_marker].
  rewrite Hp.
  change (get_field (request_of id "get" (keys_params [VStr key])) "params")
    with (Some (keys_params [VStr key])).
  destruct (dispatch_handler (keys_params [VStr key])
              (KReply origin (request_of id "get" (keys_params [VStr key]))) h) as (-> & _).
  unfold _get.
  change (get_field (keys_params [VStr key]) "keys") with (Some (VArr [VStr key])).
  cbv iota. rewrite all_array. cbn [List.length launch Mem.drive Mem.exec Mem.arg].
  change (Mem.to_string (Mem.arg [get_index (VArr [VStr key]) 0] 0)) with key.
  rewrite Hv. cbn [default].
  rewrite (item_last (List.length h) 0 _ _ (all_init 1));
    [|reflexivity|rewrite lookup_app_r by lia; now rewrite Nat.sub_diag|reflexivity].
  rewrite get_done by discriminate.
  rewrite (reply_done origin _ _ _ (VNum id)) by reflexivity.
  cbn [results all_init replicate array_set]. simpl.
  destruct fuel; reflexivity.
Qed.

(** X12.  Against an adapter that stores what is written: a permitted
    [del] of a key is answered without error or result and leaves the key
    unset, other keys untouched; a permitted [clear] is answered likewise,
    whatever its params, and leaves every key unset; and a permitted [get] of
    one key that is unset is answered with null. *)
Theorem removal_then_get (permissions : list Entry.t) (origin key : string)
  (params : value) (id1 id2 : Z) (store : gmap string value) (h : heap) (fuel : nat) :
  _permitted permissions origin "del" = true ->
  _permitted permissions origin "clear" = true ->
  _permitted permissions origin "get" = true ->
  (exists store1 h1,
     Mem.serve (S (S fuel)) permissions origin
       (request_of id1 "del" (keys_params [VStr key])) store h
     = Some (Ret (store1, h1, [(Reply (VNum id1) VUndefined VUndefined, target origin)])) /\
     store1 !! key = None /\
     (forall other, other <> key -> store1 !! other = store !! other))
  /\ (exists store1,
        Mem.serve (S (S fuel)) permissions origin (request_of id1 "clear" params) store h
        = Some (Ret (store1, h, [(Reply (VNum id1) VUndefined VUndefined, target origin)])) /\
        forall other : string, store1 !! other = None)
  /\ (forall (store2 : gmap string value) (h2 : heap),
        store2 !! key = None ->
        exists h3,
          Mem.serve (S (S fuel)) permissions origin
            (request_of id2 "get" (keys_params [VStr key])) store2 h2
          = Some (Ret (store2, h3, [(Reply (VNum id2) VUndefined VNull, target origin)]))).
Proof.
  intros Hdel Hclear Hget. split; [|split].
  - eexists _, _. split; [now apply serve_del|split].
    + apply lookup_delete_eq.
    + intros other Hne. now apply lookup_delete_ne.
  - eexists. split; [now apply serve_clear|]. intros other. apply lookup_empty.
  - intros store2 h2 Hv. eexists. now apply serve_get_unset.
Qed.

Lemma removal_then_get_witness :
  exists h3,
    Mem.serve 2 anyone "http://site" (request_of 2 "get" (keys_params [VStr "a"]))
      (delete "a" {[ "a" := VStr "v" ]}) []
    = Some (Ret (delete "a" {[ "a" := VStr "v" ]}, h3,
                 [(Reply (VNum 2) VUndefined VNull, "http://site")])).
Proof.
  destruct (removal_then_get anyone "http://site" "a" VNull 1 2 {[ "a" := VStr "v" ]} [] 0)
    as (_ & _ & Hget); [reflexivity|reflexivity|reflexivity|].
  apply Hget. apply lookup_delete_eq.
Defined.

End Removal.

(** ** The adapter over [localStorage] *)

Section LocalStorageAdapter.

Context {W : Type}.

(** The one shape the six methods share. *)
Lemma protocol_shape (a : W -> Adapter.access W)
  (callback : value -> value -> W -> Adapter.result W) (w : W) :
  let r :=
    match Adapter.counting_access a
            {| Adapter.inner := w; Adapter.invocations := []; Adapter.accesses := 0 |} with
    | Adapter.Gave v w1 =>
        match Adapter.recording callback VNull v w1 with
        | Adapter.Returned w2 => Adapter.Returned w2
        | Adapter.Raised err w2 => Adapter.recording callback err VUndefined w2
        end
    | Adapter.Threw err w1 => Adapter.recording callback err VUndefined w1
    end in
  Adapter.accesses (Adapter.final r) = 1%nat
  /\ Adapter.invocations (Adapter.final r)
     = match a w with
       | Adapter.Threw err _ => [(err, VUndefined)]
       | Adapter.Gave v w1 =>
           match callback VNull v w1 with
           | Adapter.Returned _ => [(VNull, v)]
           | Adapter.Raised exn _ => [(VNull, v); (exn, VUndefined)]
           end
       end
  /\ Adapter.inner (Adapter.final r)
     = match a w with
       | Adapter.Threw err w1 => Adapter.final (callback err VUndefined w1)
       | Adapter.Gave v w1 =>
           match callback VNull v w1 with
           | Adapter.Returned w2 => w2
           | Adapter.Raised exn w2 => Adapter.final (callback exn VUndefined w2)
           end
       end.
Proof.
  unfold Adapter.counting_access, Adapter.recording.
  cbn [Adapter.inner Adapter.invocations Adapter.accesses].
  destruct (a w) as [v w1|err w1]; cbn [Adapter.inner Adapter.invocations Adapter.accesses].
  - destruct (callback VNull v w1) as [w2|exn w2];
      cbn [Adapter.final Adapter.inner Adapter.invocations Adapter.accesses app].
    + repeat split.
    + destruct (callback exn VUndefined w2); repeat split.
  - destruct (callback err VUndefined w1); repeat split.
Qed.

(** X13.  Each method of [LocalStorageAdapter], when its timer runs,
    accesses [localStorage] exactly once.  If the access raises, the callback
    is invoked once, with the exception as [err] and no value.  If it gives a
    value, the callback is invoked with a null [err] and that value; should
    that invocation raise, the callback is invoked a second time, with what it
    raised as [err].  There is no other invocation. *)
Theorem adapter_callback_protocol (window_localStorage : Adapter.localStorage W)
  (method : adapter_method) (args : list value)
  (callback : value -> value -> W -> Adapter.result W) (w : W) :
  let r := Adapter.call (Adapter.counting window_localStorage) method args
             (Adapter.recording callback)
             {| Adapter.inner := w; Adapter.invocations := []; Adapter.accesses := 0 |} in
  Adapter.accesses (Adapter.final r) = 1%nat
  /\ Adapter.invocations (Adapter.final r)
     = match Adapter.storage_access window_localStorage method args w with
       | Adapter.Threw err _ => [(err, VUndefined)]
       | Adapter.Gave v w1 =>
           match callback VNull v w1 with
           | Adapter.Returned _ => [(VNull, v)]
           | Adapter.Raised exn _ => [(VNull, v); (exn, VUndefined)]
           end
       end
  /\ Adapter.inner (Adapter.final r)
     = match Adapter.storage_access window_localStorage method args w with
       | Adapter.Threw err w1 => Adapter.final (callback err VUndefined w1)
       | Adapter.Gave v w1 =>
           match callback VNull v w1 with
           | Adapter.Returned w2 => w2
           | Adapter.Raised exn w2 => Adapter.final (callback exn VUndefined w2)
           end
       end.
Proof.
  destruct method; cbn [Adapter.call Adapter.storage_access].
  - exact (protocol_shape (Adapter.ls_getItem window_localStorage _) callback w).
  - exact (protocol_shape (Adapter.ls_setItem window_localStorage _ _) callback w).
  - exact (protocol_shape (Adapter.ls_removeItem window_localStorage _) callback w).
  - exact (protocol_shape (Adapter.ls_key window_localStorage _) callback w).
  - exact (protocol_shape (Adapter.ls_length window_localStorage) callback w).
  - exact (protocol_shape (Adapter.ls_clear window_localStorage) callback w).
Qed.

End LocalStorageAdapter.

(** ** Refusals and unfinished batches *)

Section RefusalsAndWaiting.

(** X14.  A request whose method is [cross-storage:<name>], with a
    non-empty name, is refused with one reply when the name is not one of the
    five recognized ones, whatever the table holds, or when no well-formed
    entry grants it to the origin: the reply's error is
    [Invalid permissions for <name>], its result is absent, the adapter is not
    called and the hub state is unchanged.  An unknown method name is thus
    answered, not dropped. *)
Theorem refused_request (permissions : list Entry.t) (origin : string)
  (request : value) (name : string) (h : heap) :
  truthy request = true ->
  get_field request "method" = Some (VStr (marker +:+ name)) ->
  name <> "" -> ~ has_marker name ->
  ~ recognized name \/
  ~ (exists entry, In entry permissions /\ grants entry origin name) ->
  exists id,
    get_field request "id" = Some id /\
    listener_request permissions origin request h
    = Ret (h, [Post (Reply id (VStr ("Invalid permissions for " +:+ name)) VUndefined)
                 (target origin)]).
Proof.
  intros Ht Hm Hne Hno Hwhy.
  assert (Hp : _permitted permissions origin name = false).
  { unfold _permitted. destruct (_inArray name available) eqn:Hav; [simpl|reflexivity].
    destruct Hwhy as [Hrec|Hgrant].
    - exfalso. apply Hrec. now apply available_recognized.
    - destruct (scan permissions origin name) eqn:Hs; [|reflexivity].
      exfalso. apply Hgrant. exact (scan_from_true permissions origin name [] Hs). }
  unfold listener_request.
  rewrite (route_exact permissions origin request name Ht Hm Hne Hno), Hp.
  destruct (postMessage_truthy origin request
              (VStr ("Invalid permissions for " +:+ name)) VUndefined Ht) as (id & Hid & ->).
  exists id. split; [exact Hid|reflexivity].
Qed.

Lemma refused_request_witness :
  listener_request anyone "http://site" (request_of 4 "launch" VNull) []
  = Ret ([], [Post (Reply (VNum 4) (VStr "Invalid permissions for launch") VUndefined)
                "http://site"]).
Proof.
  destruct (refused_request anyone "http://site" (request_of 4 "launch" VNull) "launch" [])
    as (id & Hid & Hrun).
  - reflexivity.
  - reflexivity.
  - discriminate.
  - apply short_no_marker. simpl. lia.
  - left. unfold recognized. simpl.
    intros H. repeat (destruct H as [H|H]; [discriminate H|]). exact H.
  - injection Hid as <-. exact Hrun.
Defined.

(** X15.  A batch is not answered early.  As long as fewer calls of an
    [_all] have completed than it launched, all of them successfully, nothing
    is posted and nothing more is launched: the successes are only stored,
    each at the index of its item, and the count of calls awaited goes down by
    one for each. *)
Theorem no_early_reply (items : list value) (method : adapter_method) (callback : cont)
  (h h1 : heap) (effs log0 : list effect) (events : list completion) :
  _all (VArr items) method callback h = Ret (h1, effs) ->
  Forall (fun c => truthy c.2.1 = false /\ (c.1 < List.length items)%nat) events ->
  (List.length events < List.length items)%nat ->
  run {| w_heap := h1; w_log := log0 ++ effs |} (shift (List.length log0) events)
  = Ret {| w_heap :=
             <[List.length h :=
                 {| results := store_all (replicate (List.length items) VUndefined) events;
                    pending := Z.of_nat (List.length items - List.length events) |}]> h1;
           w_log := log0 ++ effs |}.
Proof.
  intros Hall Hok Hlt.
  rewrite all_array in Hall. injection Hall as <- <-.
  set (n := List.length items) in *. set (cell := List.length h).
  assert (Hsucc : forallb succeeded events = true).
  { apply forallb_forall. intros c Hc. rewrite Forall_forall in Hok.
    apply list_elem_of_In in Hc. unfold succeeded. now rewrite (proj1 (Hok c Hc)). }
  rewrite (run_items_at _ (List.length log0) cell n callback events _ (all_init n)).
  - rewrite (all_run_pending events (all_init n))
      by (unfold all_init; cbn [pending]; (assumption || lia)).
    unfold all_init. cbn [fst results pending].
    repeat f_equal. lia.
  - intros j Hj. eexists _, _.
    rewrite <- (app_nil_r (launch _ _ _ _ _ _)). now apply launch_in_log.
  - unfold cell. rewrite lookup_app_r by lia. now rewrite Nat.sub_diag.
  - exact Hok.
  - unfold all_init. cbn [pending]. lia.
Qed.

Lemma no_early_reply_witness :
  run {| w_heap := [all_init 3];
         w_log := launch (VArr [VStr "a"; VStr "b"; VStr "c"]) A_getItem
                    (KGet (KReply "http://site" (request_of 5 "get" VNull))) 0 0 3 |}
    [(2%nat, (VNull, VStr "z")); (0%nat, (VNull, VStr "x"))]
  = Ret {| w_heap := [{| results := [VStr "x"; VUndefined; VStr "z"]; pending := 1 |}];
           w_log := launch (VArr [VStr "a"; VStr "b"; VStr "c"]) A_getItem
                      (KGet (KReply "http://site" (request_of 5 "get" VNull))) 0 0 3 |}.
Proof.
  apply (no_early_reply [VStr "a"; VStr "b"; VStr "c"] A_getItem
           (KGet (KReply "http://site" (request_of 5 "get" VNull))) [] [all_init 3]
           (launch (VArr [VStr "a"; VStr "b"; VStr "c"]) A_getItem
              (KGet (KReply "http://site" (request_of 5 "get" VNull))) 0 0 3) []
           [(2%nat, (VNull, VStr "z")); (0%nat, (VNull, VStr "x"))]).
  - reflexivity.
  - repeat constructor.
  - simpl. lia.
Defined.

End RefusalsAndWaiting.
